(** * mini_cassandra: a shallow embedding of the hash ring, the local store,
    the router and the node bootstrap, with the properties of its spec. *)

From Stdlib Require Import ZArith Lia List Ascii String Sorting.Sorted Sorting.Permutation.
From stdpp Require Import base gmap sets list strings.

Open Scope Z_scope.

(* ===================================================================== *)
(** ** internal/hashring *)

Module HashRing.

(** [type NodeID string]; [type NodeInfo struct { ID NodeID; Host string }] *)
Record NodeInfo := mkNodeInfo { ID : string; Host : string }.

(** The Go zero value [NodeInfo{}], returned by a map lookup that misses. *)
Definition zeroNode : NodeInfo := mkNodeInfo "" "".

#[global] Instance NodeInfo_eq_dec : EqDecision NodeInfo.
Proof. solve_decision. Defined.

(** [type Ring struct { vNodes int; hashes []uint32; hashMap map[uint32]NodeInfo }]
    (the RWMutex is not modelled: every operation runs on one snapshot). *)
Record Ring := mkRing {
  vNodes : Z;
  hashes : list Z;
  hashMap : gmap Z NodeInfo
}.

(** *** hash/fnv, [fnv.New32a] then [Write] then [Sum32] *)
Definition offset32 : Z := 2166136261.
Definition prime32 : Z := 16777619.

(** [hash ^= sum32a(c); hash *= prime32] on a uint32. *)
Definition fnv32a_step (hash : Z) (c : ascii) : Z :=
  Z.land (Z.lxor hash (Z.of_nat (nat_of_ascii c)) * prime32) (Z.ones 32).

Fixpoint fnv32a_write (hash : Z) (data : string) : Z :=
  match data with
  | EmptyString => hash
  | String c rest => fnv32a_write (fnv32a_step hash c) rest
  end.

(** [func hashFn(key string) uint32]: a Go string is its byte sequence,
    here the list of 8-bit characters of a [string]. *)
Definition hashFn (key : string) : Z := fnv32a_write offset32 key.

(** *** [fmt.Sprintf("%s#%d", string(n.ID), i)] *)
Fixpoint itoa_aux (fuel n : nat) (acc : string) : string :=
  match fuel with
  | O => acc
  | S f =>
      let acc' := String (ascii_of_nat (48 + n mod 10)) acc in
      if Nat.ltb n 10 then acc' else itoa_aux f (n / 10) acc'
  end.

(** Decimal representation of a non-negative int ([%d]). *)
Definition itoa (n : nat) : string := itoa_aux (S n) n EmptyString.

Definition vKey (n : NodeInfo) (i : nat) : string :=
  (ID n ++ String "#" (itoa i))%string.

(** *** [sortHashes]: [sort.Slice] with [hashes[i] < hashes[j]]. The
    result is the ascending arrangement of the multiset of hashes; it is
    written here as an insertion sort. *)
Fixpoint insert_sorted (x : Z) (l : list Z) : list Z :=
  match l with
  | [] => [x]
  | y :: l' => if Z.ltb y x then y :: insert_sorted x l' else x :: l
  end.

Fixpoint sort_Z (l : list Z) : list Z :=
  match l with
  | [] => []
  | x :: l' => insert_sorted x (sort_Z l')
  end.

Definition sortHashes (r : Ring) : Ring :=
  mkRing (vNodes r) (sort_Z (hashes r)) (hashMap r).

(** [addNodeNoLock]: for i in [0, vNodes) append [hashFn(vKey)] to
    [hashes] and set [hashMap[h] = n] (a colliding hash is overwritten). *)
Definition addSlot (n : NodeInfo) (r : Ring) (i : nat) : Ring :=
  let h := hashFn (vKey n i) in
  mkRing (vNodes r) (hashes r ++ [h]) (<[h := n]> (hashMap r)).

Definition addNodeNoLock (r : Ring) (n : NodeInfo) : Ring :=
  fold_left (addSlot n) (seq 0 (Z.to_nat (vNodes r))) r.

(** [NewRing(nodes, vNodes)] *)
Definition NewRing (nodes : list NodeInfo) (v : Z) : Ring :=
  sortHashes (fold_left addNodeNoLock nodes (mkRing v [] ∅)).

(** [AddNode(n)] *)
Definition AddNode (r : Ring) (n : NodeInfo) : Ring :=
  sortHashes (addNodeNoLock r n).

(** *** [sort.Search(n, f)]: binary search for the least index in [0, n]
    at which [f] holds, as in the Go standard library:
    [i, j := 0, n; for i < j { h := (i+j)/2; if !f(h) { i = h+1 } else { j = h } }].
    The loop runs at most [n] times; [fuel] is that bound. *)
Fixpoint search_loop (fuel : nat) (f : nat -> bool) (i j : nat) : nat :=
  match fuel with
  | O => i
  | S fuel' =>
      if Nat.ltb i j then
        let h := Nat.div2 (i + j) in
        if f h then search_loop fuel' f i h else search_loop fuel' f (S h) j
      else i
  end.

Definition sortSearch (n : nat) (f : nat -> bool) : nat := search_loop n f 0 n.

(** [r.hashes[i]] (the index is always in range where it is used). *)
Definition hashAt (r : Ring) (i : nat) : Z := nth i (hashes r) 0.

(** [r.hashMap[h]]: the zero [NodeInfo] when [h] is absent. *)
Definition nodeAt (r : Ring) (h : Z) : NodeInfo :=
  default zeroNode (hashMap r !! h).

(** First position [idx := sort.Search(len, hashes[i] >= h)], wrapped to 0. *)
Definition startIndex (r : Ring) (h : Z) : nat :=
  let idx := sortSearch (length (hashes r)) (fun i => Z.leb h (hashAt r i)) in
  if Nat.eqb idx (length (hashes r)) then 0%nat else idx.

(** The state of the replica walk: [idx], [replicas] and [seen]. *)
Record WalkState := mkWalk {
  w_idx : nat;
  w_replicas : list NodeInfo;
  w_seen : gset string
}.

(** One iteration of the body of [for len(replicas) < rFactor { ... }]:
    [inl res] when the loop exits (at the guard or by [break]), [inr s']
    when it goes on. *)
Definition walkStep (r : Ring) (rFactor : Z) (s : WalkState)
    : list NodeInfo + WalkState :=
  if Z.ltb (Z.of_nat (length (w_replicas s))) rFactor then
    let node := nodeAt r (hashAt r (w_idx s)) in
    let '(seen', replicas') :=
      if decide (ID node ∈ w_seen s) then (w_seen s, w_replicas s)
      else ({[ ID node ]} ∪ w_seen s, w_replicas s ++ [node]) in
    let idx' := Nat.modulo (S (w_idx s)) (length (hashes r)) in
    if Nat.eqb (size seen') (map_size (hashMap r)) then inl replicas'
    else inr (mkWalk idx' replicas' seen')
  else inl (w_replicas s).

(** The loop run for at most [fuel] iterations; [None] means that it has
    not exited within [fuel] iterations. The loop diverges exactly when it
    returns [None] for every [fuel]. *)
Fixpoint walk (fuel : nat) (r : Ring) (rFactor : Z) (s : WalkState)
    : option (list NodeInfo) :=
  match fuel with
  | O => None
  | S f =>
      match walkStep r rFactor s with
      | inl res => Some res
      | inr s' => walk f r rFactor s'
      end
  end.

(** [GetReplicasForKey(key, rFactor)] with the walk bounded by [fuel]. *)
Definition GetReplicasForKey (fuel : nat) (r : Ring) (key : string) (rFactor : Z)
    : option (list NodeInfo) :=
  if Nat.eqb (length (hashes r)) 0 || Z.leb rFactor 0 then Some []
  else
    let rF := if Z.ltb (Z.of_nat (length (hashes r))) rFactor
              then Z.of_nat (length (hashes r)) else rFactor in
    let h := hashFn key in
    walk fuel r rF (mkWalk (startIndex r h) [] ∅).

(** [RemoveNode(id)]: one pass over [hashes], deleting from [hashMap] and
    dropping every slot whose current owner ([r.hashMap[h]], the zero
    [NodeInfo] when missing) has id [id]; then sort. *)
Definition removeStep (id : string) (acc : gmap Z NodeInfo * list Z) (h : Z)
    : gmap Z NodeInfo * list Z :=
  let '(hm, newHashes) := acc in
  if String.eqb (ID (default zeroNode (hm !! h))) id then (delete h hm, newHashes)
  else (hm, newHashes ++ [h]).

Definition RemoveNode (r : Ring) (id : string) : Ring :=
  let '(hm, newHashes) := fold_left (removeStep id) (hashes r) (hashMap r, []) in
  sortHashes (mkRing (vNodes r) newHashes hm).

(** [getNode(hash)]: the owner of the first slot at or after [hash]
    (wrapping), with [ok] from the map lookup. *)
Definition getNode (r : Ring) (hash : Z) : NodeInfo * bool :=
  if Nat.eqb (length (hashes r)) 0 then (zeroNode, false)
  else match hashMap r !! hashAt r (startIndex r hash) with
       | Some n => (n, true)
       | None => (zeroNode, false)
       end.

(** [GetNodeForKey(key)] *)
Definition GetNodeForKey (r : Ring) (key : string) : NodeInfo * bool :=
  getNode r (hashFn key).

End HashRing.

(* ===================================================================== *)
(** ** Concrete configurations *)

Module Configs.
Import HashRing.

Definition node1 : NodeInfo := mkNodeInfo "node1" "node1:8080".
Definition node2 : NodeInfo := mkNodeInfo "node2" "node2:8080".
Definition node3 : NodeInfo := mkNodeInfo "node3" "node3:8080".

(** The ring of the image's default configuration
    [CLUSTER_NODES=node1=node1:8080], with [vNodes := 100] as in [main]. *)
Definition ring1 : Ring := NewRing [node1] 100.

(** A three-node ring, as started by the compose file. *)
Definition ring3 : Ring := NewRing [node1; node2; node3] 100.

End Configs.

(* ===================================================================== *)
(** ** internal/kv: [Store] *)

Module KV.

(** [type Store struct { data map[string]string }] (the RWMutex makes each
    operation atomic; operations are modelled one at a time). *)
Abbreviation Store := (gmap string string).

Definition NewStore : Store := ∅.

(** [s.data[key] = value] *)
Definition Put (s : Store) (key value : string) : Store := <[key := value]> s.

(** [val, ok := s.data[key]]: the zero string when absent. *)
Definition Get (s : Store) (key : string) : string * bool :=
  match s !! key with
  | Some v => (v, true)
  | None => (EmptyString, false)
  end.

(** [delete(s.data, key)] *)
Definition Delete (s : Store) (key : string) : Store := delete key s.

(** [Keys()]: Go's map iteration order is unspecified; this is one order. *)
Definition Keys (s : Store) : list string := map fst (map_to_list s).

End KV.

(* ===================================================================== *)
(** ** internal/cluster: [Router] *)

Module Cluster.
Import HashRing.

(** The fields of [Router] other than the store, the ring and the client. *)
Record Router := mkRouter {
  nodeID : string;
  selfHost : string;
  replicationFactor : Z
}.

(** [NewRouter]: a factor below 1 is clamped to 1. *)
Definition NewRouter (id host : string) (rf : Z) : Router :=
  mkRouter id host (if Z.ltb rf 1 then 1 else rf).

(** [isLocal(node)]: ids are compared, never hosts. *)
Definition isLocal (r : Router) (node : NodeInfo) : bool :=
  String.eqb (ID node) (nodeID r).

(** Outcome of [httpClient.Post]: an error, or a response with its status. *)
Inductive PostResult := PostErr (cause : string) | PostResp (status : Z).

(** Outcome of the internal GET: [url.Parse] failing, [httpClient.Get]
    failing, or a response with status and body. *)
Inductive GetResult :=
  | URLParseErr
  | GetErr (cause : string)
  | GetResp (status : Z) (body : string).

(** The peers as seen through HTTP: what each remote call returns, by
    host and request. *)
Record Transport := mkTransport {
  remotePut : string -> string -> string -> PostResult;    (* host key value *)
  remoteGet : string -> string -> GetResult;                (* host key *)
  remoteDelete : string -> string -> PostResult             (* host key *)
}.

(** The entries of [errs]. *)
Inductive ReplicaError :=
  | RemoteFailed (host : string) (cause : string)  (* "remote PUT to %s failed: %w" *)
  | RemoteStatus (host : string) (status : Z).     (* "remote PUT to %s status=%d" *)

(** The errors returned by the router. *)
Inductive RouterError :=
  | NoReplicas                                     (* "no replicas for key" *)
  | ReplicationErrors (errs : list ReplicaError).  (* "replication errors: %v" *)

(** The loop state of [Put]: local store, hosts posted to (in order), [errs]. *)
Definition PutState : Type := KV.Store * list string * list ReplicaError.

Definition putStep (r : Router) (tr : Transport) (key value : string)
    (acc : PutState) (node : NodeInfo) : PutState :=
  let '(st, calls, errs) := acc in
  if isLocal r node then (KV.Put st key value, calls, errs)
  else
    let calls' := calls ++ [Host node] in
    match remotePut tr (Host node) key value with
    | PostErr e => (st, calls', errs ++ [RemoteFailed (Host node) e])
    | PostResp code =>
        if Z.leb 300 code then (st, calls', errs ++ [RemoteStatus (Host node) code])
        else (st, calls', errs)
    end.

(** [Router.Put(key, value)], given the replica list [replicas] that
    [r.ring.GetReplicasForKey(key, r.replicationFactor)] returned. The
    result is the new local store, the hosts posted to, and the error. *)
Definition Put (r : Router) (tr : Transport) (st : KV.Store)
    (replicas : list NodeInfo) (key value : string)
    : KV.Store * list string * option RouterError :=
  match replicas with
  | [] => (st, [], Some NoReplicas)
  | _ =>
      let '(st', calls, errs) := fold_left (putStep r tr key value) replicas (st, [], []) in
      (st', calls, match errs with [] => None | _ => Some (ReplicationErrors errs) end)
  end.

(** The loop of [Router.Get]: [(value, found, err)]. *)
Fixpoint getLoop (r : Router) (tr : Transport) (st : KV.Store) (key : string)
    (replicas : list NodeInfo) : string * bool * option RouterError :=
  match replicas with
  | [] => (EmptyString, false, None)                 (* se nenhum tiver a chave *)
  | node :: rest =>
      if isLocal r node then
        let '(val, ok) := KV.Get st key in
        if ok then (val, true, None) else getLoop r tr st key rest
      else
        match remoteGet tr (Host node) key with
        | URLParseErr => getLoop r tr st key rest
        | GetErr _ => getLoop r tr st key rest      (* falha de rede *)
        | GetResp code body =>
            if Z.eqb code 404 then getLoop r tr st key rest
            else if Z.leb 300 code then getLoop r tr st key rest
            else (body, true, None)
        end
  end.

(** [Router.Get(key)] for the replica list of [key]. *)
Definition Get (r : Router) (tr : Transport) (st : KV.Store)
    (replicas : list NodeInfo) (key : string) : string * bool * option RouterError :=
  match replicas with
  | [] => (EmptyString, false, Some NoReplicas)
  | _ => getLoop r tr st key replicas
  end.

(** [ctx.Err()] returned on cancellation, or [nil]. *)
Inductive RebalanceResult := RebCancelled | RebDone.

(** The loop state of [RebalanceLocalKeys]: store, [moved], [kept], and
    the keys whose move failed (the "failed to move key" log lines). *)
Record RebState := mkReb {
  rb_store : KV.Store;
  rb_moved : nat;
  rb_kept : nat;
  rb_failed : list string
}.

(** The body of [for _, key := range keys], from the point after the
    [ctx.Done()] check. [replicasOf key] is the ring's answer for [key]
    (the ring does not change during the scan). *)
Definition rebalanceKey (r : Router) (tr : Transport)
    (replicasOf : string -> list NodeInfo) (s : RebState) (key : string) : RebState :=
  match KV.Get (rb_store s) key with
  | (_, false) => s
  | (val, true) =>
      let replicas := replicasOf key in
      match replicas with
      | [] => mkReb (rb_store s) (rb_moved s) (S (rb_kept s)) (rb_failed s)
      | _ =>
          if existsb (isLocal r) replicas then
            mkReb (rb_store s) (rb_moved s) (S (rb_kept s)) (rb_failed s)
          else
            let '(st', _, err) := Put r tr (rb_store s) replicas key val in
            match err with
            | Some _ => mkReb st' (rb_moved s) (rb_kept s) (rb_failed s ++ [key])
            | None => mkReb (KV.Delete st' key) (S (rb_moved s)) (rb_kept s) (rb_failed s)
            end
      end
  end.

(** The loop over the snapshot [keys]; [ctxDone i] tells whether the
    context is done when iteration [i] starts. *)
Fixpoint rebalanceLoop (r : Router) (tr : Transport)
    (replicasOf : string -> list NodeInfo) (ctxDone : nat -> bool)
    (i : nat) (keys : list string) (s : RebState) : RebState * RebalanceResult :=
  match keys with
  | [] => (s, RebDone)
  | key :: rest =>
      if ctxDone i then (s, RebCancelled)
      else rebalanceLoop r tr replicasOf ctxDone (S i) rest
             (rebalanceKey r tr replicasOf s key)
  end.

(** [RebalanceLocalKeys(ctx)], with [keys] the snapshot [r.localStore.Keys()]. *)
Definition RebalanceLocalKeys (r : Router) (tr : Transport)
    (replicasOf : string -> list NodeInfo) (ctxDone : nat -> bool)
    (st : KV.Store) (keys : list string) : RebState * RebalanceResult :=
  rebalanceLoop r tr replicasOf ctxDone 0 keys (mkReb st 0 0 []).

(** The loop state of [Delete]: local store, hosts posted to, [errs]. *)
Definition deleteStep (r : Router) (tr : Transport) (key : string)
    (acc : PutState) (node : NodeInfo) : PutState :=
  let '(st, calls, errs) := acc in
  if isLocal r node then (KV.Delete st key, calls, errs)
  else
    let calls' := calls ++ [Host node] in
    match remoteDelete tr (Host node) key with
    | PostErr e => (st, calls', errs ++ [RemoteFailed (Host node) e])
    | PostResp code =>
        if Z.leb 300 code then (st, calls', errs ++ [RemoteStatus (Host node) code])
        else (st, calls', errs)
    end.

(** [Router.Delete(key)] for the replica list of [key]. *)
Definition Delete (r : Router) (tr : Transport) (st : KV.Store)
    (replicas : list NodeInfo) (key : string)
    : KV.Store * list string * option RouterError :=
  match replicas with
  | [] => (st, [], Some NoReplicas)
  | _ =>
      let '(st', calls, errs) := fold_left (deleteStep r tr key) replicas (st, [], []) in
      (st', calls, match errs with [] => None | _ => Some (ReplicationErrors errs) end)
  end.

End Cluster.

(* ===================================================================== *)
(** ** internal/api: the client GET handler *)

Module API.
Import Cluster.

(** [HandleGetDistributed]: the status code and body it writes. *)
Definition HandleGetDistributed (res : string * bool * option RouterError) : Z * string :=
  match res with
  | (_, _, Some _) => (502, "error"%string)       (* http.StatusBadGateway *)
  | (_, false, None) => (404, "not found"%string) (* http.StatusNotFound *)
  | (value, true, None) => (200, value)
  end.

(** [HandlePutDistributed] and [HandleDeleteDistributed]: the status and
    body written for the error returned by [Router.Put] / [Router.Delete]. *)
Definition HandleWriteDistributed (err : option RouterError) : Z * string :=
  match err with
  | Some _ => (502, "error"%string)
  | None => (200, "OK"%string)
  end.

(** [HandleReplicaPut]: [req] is the result of [json.Unmarshal] on the
    body ([None] when it fails). *)
Definition HandleReplicaPut (store : KV.Store) (req : option (string * string))
    : KV.Store * (Z * string) :=
  match req with
  | None => (store, (400, "invalid json"%string))
  | Some (k, v) => (KV.Put store k v, (200, "OK"%string))
  end.

(** [HandleReplicaGet]: [key] is [r.URL.Query().Get("key")] ("" when absent). *)
Definition HandleReplicaGet (store : KV.Store) (key : string) : Z * string :=
  if String.eqb key EmptyString then (400, "missing key"%string)
  else match KV.Get store key with
       | (val, true) => (200, val)
       | (_, false) => (404, "not found"%string)
       end.

(** [HandleReplicaDelete] *)
Definition HandleReplicaDelete (store : KV.Store) (req : option string)
    : KV.Store * (Z * string) :=
  match req with
  | None => (store, (400, "invalid json"%string))
  | Some k => (KV.Delete store k, (200, "OK"%string))
  end.

End API.

(* ===================================================================== *)
(** ** cmd/node: [parseClusterNodes] *)

Module Main.
Import HashRing.

(** [strings.Split(s, sep)] for a one-byte separator ([Split("", sep)]
    is [[""]]). *)
Fixpoint Split (s : string) (sep : ascii) : list string :=
  match s with
  | EmptyString => [EmptyString]
  | String x rest =>
      let parts := Split rest sep in
      if ascii_dec x sep then EmptyString :: parts
      else match parts with
           | p :: ps => String x p :: ps
           | [] => [String x EmptyString]
           end
  end.

(** The split of [s] around the first [sep] ([strings.Index]). *)
Fixpoint cut (s : string) (sep : ascii) : option (string * string) :=
  match s with
  | EmptyString => None
  | String x rest =>
      if ascii_dec x sep then Some (EmptyString, rest)
      else match cut rest sep with
           | Some (a, b) => Some (String x a, b)
           | None => None
           end
  end.

(** [strings.SplitN(s, sep, 2)] *)
Definition SplitN2 (s : string) (sep : ascii) : list string :=
  match cut s sep with
  | None => [s]
  | Some (a, b) => [a; b]
  end.

(** The UTF-8 encodings of the runes [unicode.IsSpace] accepts: '\t',
    '\n', '\v', '\f', '\r', ' ', U+0085, U+00A0, U+1680, U+2000 to
    U+200A, U+2028, U+2029, U+202F, U+205F and U+3000. *)
Definition spaceRunes : list (list ascii) :=
  map (map ascii_of_nat)
    ([[9]; [10]; [11]; [12]; [13]; [32]; [194; 133]; [194; 160]; [225; 154; 128]] ++
     map (fun b => [226; 128; b]) (seq 128 11) ++
     [[226; 128; 168]; [226; 128; 169]; [226; 128; 175]; [226; 129; 159];
      [227; 128; 128]])%nat.

(** [l] with the prefix [p] removed, when [l] starts with [p]. *)
Fixpoint stripPrefix (p l : list ascii) : option (list ascii) :=
  match p, l with
  | [], _ => Some l
  | x :: p', y :: l' => if ascii_dec x y then stripPrefix p' l' else None
  | _ :: _, [] => None
  end.

(** The bytes after the rune of [encs] that [l] starts with, if any. A
    rune decoded by [utf8.DecodeRuneInString] is a space exactly when the
    bytes start with its encoding: UTF-8 encodes each rune one way, and an
    invalid sequence decodes to [utf8.RuneError], which is not a space. *)
Fixpoint afterRune (encs : list (list ascii)) (l : list ascii) : option (list ascii) :=
  match encs with
  | [] => None
  | e :: es => match stripPrefix e l with
               | Some r => Some r
               | None => afterRune es l
               end
  end.

(** The loop of [indexFunc(s, unicode.IsSpace, false)]: drop one leading
    rune of [encs] at a time, with [fuel] bounding the iterations. *)
Fixpoint dropRunes (encs : list (list ascii)) (fuel : nat) (l : list ascii) : list ascii :=
  match fuel with
  | O => l
  | S f => match afterRune encs l with
           | Some l' => dropRunes encs f l'
           | None => l
           end
  end.

(** [strings.TrimLeftFunc(s, unicode.IsSpace)]; every rune has at least
    one byte, so [length l] iterations are enough. *)
Definition TrimLeftSpace (l : list ascii) : list ascii :=
  dropRunes spaceRunes (length l) l.

(** [strings.TrimRightFunc(s, unicode.IsSpace)]: the same loop from the
    end ([utf8.DecodeLastRuneInString]), on the reversed bytes with the
    reversed encodings. *)
Definition TrimRightSpace (l : list ascii) : list ascii :=
  rev (dropRunes (map (@rev ascii) spaceRunes) (length l) (rev l)).

(** [strings.TrimSpace(s)]: the leading white space runes, then the
    trailing ones, are removed ([TrimFunc] is [TrimRightFunc] of
    [TrimLeftFunc]; the ASCII fast paths of [TrimSpace] give the same
    string). *)
Definition TrimSpace (s : string) : string :=
  string_of_list_ascii (TrimRightSpace (TrimLeftSpace (list_ascii_of_string s))).

(** The loop [for _, p := range parts { ... }]. *)
Fixpoint parseParts (parts : list string) : list NodeInfo :=
  match parts with
  | [] => []
  | p0 :: ps =>
      let p := TrimSpace p0 in
      if String.eqb p EmptyString then parseParts ps
      else match SplitN2 p "=" with
           | [id; host] => mkNodeInfo id host :: parseParts ps
           | _ => parseParts ps          (* [WARN] invalid CLUSTER_NODES entry *)
           end
  end.

(** [parseClusterNodes(env)] *)
Definition parseClusterNodes (env : string) : list NodeInfo :=
  if String.eqb env EmptyString then [] else parseParts (Split env ",").

(** [strings.TrimPrefix(s, ":")] *)
Definition TrimPrefixColon (s : string) : string :=
  match s with
  | String c rest => if ascii_dec c ":" then rest else s
  | EmptyString => s
  end.

(** [findSelfHost(nodes, nodeID, listenAddr)] *)
Fixpoint findSelfHost (nodes : list NodeInfo) (nodeID listenAddr : string) : string :=
  match nodes with
  | n :: ns => if String.eqb (ID n) nodeID then Host n else findSelfHost ns nodeID listenAddr
  | [] =>
      let addr := TrimPrefixColon listenAddr in
      let addr := if String.eqb addr EmptyString then "8080"%string else addr in
      ("localhost:" ++ addr)%string
  end.

(** The node list [main] builds the ring from: the parsed CLUSTER_NODES,
    or the single self node when that is empty. *)
Definition bootstrapNodes (nodeID listenAddr clusterEnv : string) : list NodeInfo :=
  match parseClusterNodes clusterEnv with
  | [] => [mkNodeInfo nodeID (findSelfHost [] nodeID listenAddr)]
  | nodes => nodes
  end.

(** [vNodes := 100] in [main]. *)
Definition mainVNodes : Z := 100.

End Main.

(* ===================================================================== *)
(** ** Derived views of the code, and the spec's own definitions *)

Module Views.
Import HashRing Cluster Main.

(** What one replica contributes to [Router.Get]: [Some v] when it answers
    with [v] (a local hit, or a remote response that is neither 404 nor
    [>= 300]), [None] when the walk goes on past it. *)
Definition replicaAnswer (r : Router) (tr : Transport) (st : KV.Store) (key : string)
    (node : NodeInfo) : option string :=
  if isLocal r node then
    match KV.Get st key with
    | (val, true) => Some val
    | (_, false) => None
    end
  else
    match remoteGet tr (Host node) key with
    | GetResp code body =>
        if Z.eqb code 404 then None else if Z.leb 300 code then None else Some body
    | _ => None
    end.

(** The errors that one replica adds to [errs] in [Router.Put]. *)
Definition replicaPutErrors (r : Router) (tr : Transport) (key value : string)
    (node : NodeInfo) : list ReplicaError :=
  if isLocal r node then []
  else match remotePut tr (Host node) key value with
       | PostErr e => [RemoteFailed (Host node) e]
       | PostResp code => if Z.leb 300 code then [RemoteStatus (Host node) code] else []
       end.

Definition perReplicaErrors (r : Router) (tr : Transport) (key value : string)
    (replicas : list NodeInfo) : list ReplicaError :=
  concat (map (replicaPutErrors r tr key value) replicas).

(** The remote replicas of a list, in order. *)
Definition remoteHosts (r : Router) (replicas : list NodeInfo) : list string :=
  map Host (List.filter (fun n => negb (isLocal r n)) replicas).

(** FNV-1a, 32 bits, as the spec words it: start from the offset basis
    2166136261; for each byte b, xor b in, then multiply by 16777619
    modulo 2^32. *)
Definition fnv1a32_ref (s : string) : Z :=
  fold_left (fun h b => (Z.lxor h (Z.of_nat (nat_of_ascii b)) * 16777619) mod 2 ^ 32)
    (list_ascii_of_string s) 2166136261.

(** [c] occurs in [s]. *)
Fixpoint has_char (c : ascii) (s : string) : bool :=
  match s with
  | EmptyString => false
  | String x rest => if ascii_dec x c then true else has_char c rest
  end.

(** The spec of one CLUSTER_NODES entry [p] and the nodes [out] it yields:
    none when it is blank after trimming or has no '='; otherwise exactly
    the node [id=host], [id] being the text before the first '='. *)
Definition entrySpec (p : string) (out : list NodeInfo) : Prop :=
  let q := TrimSpace p in
  (q = EmptyString -> out = []) /\
  (has_char "=" q = false -> out = []) /\
  (forall id host, q = (id ++ String "=" host)%string -> has_char "=" id = false ->
     out = [mkNodeInfo id host]).

End Views.

(* ===================================================================== *)
(** ** Concrete routers and peers *)

Module Scenarios.
Import HashRing Configs Cluster.

(** The router of [node1] with the default factor 3, and one with factor 2. *)
Definition router1 : Router := NewRouter "node1" "node1:8080" 3.
Definition router1_rf2 : Router := NewRouter "node1" "node1:8080" 2.

(** Peers that all answer with success (or 404 on a read). *)
Definition healthy : Transport :=
  mkTransport (fun _ _ _ => PostResp 200) (fun _ _ => GetResp 404 "not found")
    (fun _ _ => PostResp 200).

(** Peers that are all unreachable: every HTTP call fails. *)
Definition unreachable : Transport :=
  mkTransport (fun _ _ _ => PostErr "connection refused")
    (fun _ _ => GetErr "connection refused")
    (fun _ _ => PostErr "connection refused").

(** A ring with no node ([NewRing(nil, 100)], or every node removed). *)
Definition emptyRing : Ring := NewRing [] 100.

(** The ring's answer for a key, the walk run with [fuel] iterations. *)
Definition replicasIn (fuel : nat) (ring : Ring) (rFactor : Z) (key : string)
    : list NodeInfo :=
  default [] (GetReplicasForKey fuel ring key rFactor).

(** A store holding one key. *)
Definition store_alpha : KV.Store := <["alpha" := "one"]> ∅.

(** A store with "alpha" and "beta", "alpha" placed on [node2] only. *)
Definition store_ab : KV.Store := <["beta" := "two"]> (<["alpha" := "one"]> ∅).

Definition replicas_ab (k : string) : list NodeInfo :=
  if String.eqb k "alpha" then [node2] else [node1].

End Scenarios.

(* ===================================================================== *)
(** ** Lemmas on the replica walk *)

Module WalkFacts.
Import HashRing.

Lemma search_loop_le (fuel : nat) (f : nat -> bool) (i j : nat) :
  (i <= j)%nat -> (search_loop fuel f i j <= j)%nat.
Proof.
  revert i j; induction fuel as [|fuel IH]; intros i j Hij; simpl; [lia|].
  destruct (Nat.ltb_spec i j) as [Hlt|Hge]; [|lia].
  pose proof (Nat.div2_odd (i + j)) as Hd.
  set (d := Nat.div2 (i + j)) in *.
  destruct (Nat.odd (i + j)); simpl in Hd; destruct (f d).
  all: first [apply IH; lia | etransitivity; [apply IH; lia | lia]].
Qed.

Lemma startIndex_lt (r : Ring) (h : Z) :
  hashes r <> [] -> (startIndex r h < length (hashes r))%nat.
Proof.
  intros Hne. unfold startIndex, sortSearch.
  assert (length (hashes r) <> 0)%nat by (destruct (hashes r); simpl; [congruence|lia]).
  pose proof (search_loop_le (length (hashes r))
                (fun i => Z.leb h (hashAt r i)) 0 (length (hashes r)) ltac:(lia)).
  destruct (Nat.eqb_spec (search_loop (length (hashes r))
               (fun i => Z.leb h (hashAt r i)) 0 (length (hashes r)))
               (length (hashes r))); lia.
Qed.

(** Once every node reachable from a slot has been seen, an iteration
    changes nothing but [idx]: if the [break] test fails and the length
    guard holds, the loop never exits. *)
Lemma walk_stuck (r : Ring) (rF : Z) (fuel : nat) (s : WalkState) :
  (forall i, (i < length (hashes r))%nat -> ID (nodeAt r (hashAt r i)) ∈ w_seen s) ->
  Z.of_nat (length (w_replicas s)) < rF ->
  size (w_seen s) <> map_size (hashMap r) ->
  (w_idx s < length (hashes r))%nat ->
  walk fuel r rF s = None.
Proof.
  revert s; induction fuel as [|fuel IH]; intros [idx reps seen] Hall Hlen Hsize Hidx;
    simpl in *; [reflexivity|].
  unfold walkStep; simpl.
  destruct (Z.ltb_spec (Z.of_nat (length reps)) rF); [|lia].
  destruct (decide (ID (nodeAt r (hashAt r idx)) ∈ seen)) as [Hin|Hnin];
    [|exfalso; apply Hnin, Hall; exact Hidx].
  destruct (Nat.eqb_spec (size seen) (map_size (hashMap r))); [contradiction|].
  apply IH; simpl; auto.
  apply Nat.mod_upper_bound; lia.
Qed.

(** [walkN k] runs [k] iterations that do not exit. *)
Fixpoint walkN (k : nat) (r : Ring) (rF : Z) (s : WalkState) : option WalkState :=
  match k with
  | O => Some s
  | S k' => match walkStep r rF s with
            | inl _ => None
            | inr s' => walkN k' r rF s'
            end
  end.

Lemma walk_after (k : nat) (r : Ring) (rF : Z) (s s' : WalkState) :
  walkN k r rF s = Some s' ->
  (forall fuel, walk fuel r rF s' = None) ->
  forall fuel, walk fuel r rF s = None.
Proof.
  revert s; induction k as [|k IH]; intros s Hk Hs' fuel; simpl in Hk.
  - injection Hk as ->. apply Hs'.
  - destruct fuel as [|fuel]; [reflexivity|]. simpl.
    destruct (walkStep r rF s) as [res|s1]; [discriminate|].
    apply (IH s1 Hk Hs').
Qed.

(** A ring whose every slot belongs to one node [n], with more than one
    slot in [hashMap]: for [rFactor >= 2] the walk never exits, whatever
    the key. *)
Lemma one_owner_diverges (r : Ring) (n : NodeInfo) (key : string) (rFactor : Z) :
  (2 <= length (hashes r))%nat ->
  (forall i, (i < length (hashes r))%nat -> nodeAt r (hashAt r i) = n) ->
  map_size (hashMap r) <> 1%nat ->
  2 <= rFactor ->
  forall fuel, GetReplicasForKey fuel r key rFactor = None.
Proof.
  intros H2 Hown Hsz Hr fuel. unfold GetReplicasForKey.
  assert (Hne : hashes r <> []) by (intros He; rewrite He in H2; simpl in H2; lia).
  assert (Hlen : length (hashes r) <> 0%nat) by (destruct (hashes r); simpl; [congruence|lia]).
  destruct (Nat.eqb_spec (length (hashes r)) 0); [contradiction|].
  destruct (Z.leb_spec rFactor 0); [lia|]. simpl.
  set (rF := if Z.ltb (Z.of_nat (length (hashes r))) rFactor
             then Z.of_nat (length (hashes r)) else rFactor).
  pose proof (startIndex_lt r (hashFn key) Hne) as Hst.
  assert (Hpos : 0 < rF)
    by (unfold rF; destruct (Z.ltb_spec (Z.of_nat (length (hashes r))) rFactor); lia).
  assert (Hs1 : size ({[ID n]} ∪ (∅ : gset string)) = 1%nat)
    by (rewrite size_union by set_solver; rewrite size_singleton, size_empty; reflexivity).
  destruct fuel as [|fuel]; [reflexivity|].
  cbn [walk]. unfold walkStep. cbn [w_replicas w_idx w_seen length Z.of_nat].
  change (Z.of_nat 0) with 0. apply Z.ltb_lt in Hpos. rewrite Hpos.
  rewrite (Hown _ Hst).
  rewrite decide_False by set_solver.
  cbv beta iota zeta. rewrite Hs1.
  destruct (Nat.eqb_spec 1 (map_size (hashMap r))) as [He|_]; [congruence|].
  apply Z.ltb_lt in Hpos.
  apply walk_stuck; cbn [w_replicas w_idx w_seen length].
  - intros i Hi. rewrite (Hown _ Hi). set_solver.
  - rewrite app_nil_l; simpl length; unfold rF. destruct (Z.ltb_spec (Z.of_nat (length (hashes r))) rFactor); lia.
  - rewrite Hs1. congruence.
  - apply Nat.mod_upper_bound; exact Hlen.
Qed.

(** A decidable sufficient condition for [walk_stuck]. *)
Definition stuck_check (r : Ring) (rF : Z) (s : WalkState) : bool :=
  forallb (fun i => bool_decide (ID (nodeAt r (hashAt r i)) ∈ w_seen s))
    (seq 0 (length (hashes r)))
  && Z.ltb (Z.of_nat (length (w_replicas s))) rF
  && negb (Nat.eqb (size (w_seen s)) (map_size (hashMap r)))
  && Nat.ltb (w_idx s) (length (hashes r)).

Lemma stuck_check_diverges (r : Ring) (rF : Z) (s : WalkState) :
  stuck_check r rF s = true -> forall fuel, walk fuel r rF s = None.
Proof.
  unfold stuck_check. intros H fuel.
  repeat rewrite andb_true_iff in H. destruct H as [[[Hall Hlen] Hsz] Hidx].
  apply walk_stuck.
  - intros i Hi. rewrite forallb_forall in Hall.
    specialize (Hall i ltac:(apply in_seq; lia)).
    apply bool_decide_eq_true in Hall. exact Hall.
  - apply Z.ltb_lt; exact Hlen.
  - apply negb_true_iff, Nat.eqb_neq in Hsz; exact Hsz.
  - apply Nat.ltb_lt; exact Hidx.
Qed.

(** The effective factor and the start state of [GetReplicasForKey]. *)
Definition effFactor (r : Ring) (rFactor : Z) : Z :=
  if Z.ltb (Z.of_nat (length (hashes r))) rFactor
  then Z.of_nat (length (hashes r)) else rFactor.

Definition startState (r : Ring) (key : string) : WalkState :=
  mkWalk (startIndex r (hashFn key)) [] ∅.

(** After [k] iterations that do not exit, the walk of
    [GetReplicasForKey r key rFactor] is in a state that [stuck_check]
    accepts. *)
Definition diverges_after (k : nat) (r : Ring) (key : string) (rFactor : Z) : bool :=
  negb (Nat.eqb (length (hashes r)) 0 || Z.leb rFactor 0)
  && match walkN k r (effFactor r rFactor) (startState r key) with
     | Some s' => stuck_check r (effFactor r rFactor) s'
     | None => false
     end.

Lemma diverges_after_sound (k : nat) (r : Ring) (key : string) (rFactor : Z) :
  diverges_after k r key rFactor = true ->
  forall fuel, GetReplicasForKey fuel r key rFactor = None.
Proof.
  unfold diverges_after, GetReplicasForKey. intros H fuel.
  apply andb_true_iff in H as [Hg Hw]. apply negb_true_iff in Hg. rewrite Hg.
  fold (effFactor r rFactor). fold (startState r key).
  destruct (walkN k r (effFactor r rFactor) (startState r key)) as [s'|] eqn:Hk;
    [|discriminate].
  exact (walk_after k r _ _ s' Hk (stuck_check_diverges r _ s' Hw) fuel).
Qed.

Lemma forallb_seq_lt (n : nat) (P : nat -> bool) :
  forallb P (seq 0 n) = true -> forall i, (i < n)%nat -> P i = true.
Proof.
  intros H i Hi. rewrite forallb_forall in H. apply H, in_seq. lia.
Qed.

End WalkFacts.

(* ===================================================================== *)
(** ** Lemmas on the router *)

Module RouterFacts.
Import HashRing Cluster Views.

Section WithRouter.
Variables (r : Router) (tr : Transport) (st : KV.Store) (key : string).

(** The first answering replica, in list order. *)
Fixpoint firstAnswer (l : list NodeInfo) : option string :=
  match l with
  | [] => None
  | n :: l' =>
      match replicaAnswer r tr st key n with
      | Some v => Some v
      | None => firstAnswer l'
      end
  end.

Lemma getLoop_firstAnswer (l : list NodeInfo) :
  getLoop r tr st key l =
  match firstAnswer l with
  | Some v => (v, true, None)
  | None => (EmptyString, false, None)
  end.
Proof.
  induction l as [|n l IH]; simpl; [reflexivity|].
  unfold replicaAnswer. destruct (isLocal r n).
  - destruct (KV.Get st key) as [val []]; [reflexivity|exact IH].
  - destruct (remoteGet tr (Host n) key) as [|e|code body]; try exact IH.
    destruct (Z.eqb code 404); [exact IH|].
    destruct (Z.leb 300 code); [exact IH|reflexivity].
Qed.

Lemma firstAnswer_Some (l : list NodeInfo) (v : string) :
  firstAnswer l = Some v <->
  exists pre n post, l = pre ++ n :: post /\
    Forall (fun m => replicaAnswer r tr st key m = None) pre /\
    replicaAnswer r tr st key n = Some v.
Proof.
  induction l as [|m l IH]; simpl.
  - split; [discriminate|]. intros (pre & n & post & Hl & _). destruct pre; discriminate.
  - destruct (replicaAnswer r tr st key m) as [w|] eqn:Hm.
    + split.
      * intros [= ->]. exists [], m, l. split; [reflexivity|]. split; [constructor|exact Hm].
      * intros (pre & n & post & Hl & Hpre & Hn). destruct pre as [|p pre]; simpl in Hl.
        -- injection Hl as -> ->. congruence.
        -- injection Hl as -> ->. inversion Hpre; congruence.
    + rewrite IH. split.
      * intros (pre & n & post & -> & Hpre & Hn). exists (m :: pre), n, post.
        split; [reflexivity|]. split; [constructor; assumption|exact Hn].
      * intros (pre & n & post & Hl & Hpre & Hn). destruct pre as [|p pre]; simpl in Hl.
        -- injection Hl as -> ->. congruence.
        -- injection Hl as -> ->. inversion Hpre; subst.
           exists pre, n, post. split; [reflexivity|]. split; assumption.
Qed.

Lemma firstAnswer_None (l : list NodeInfo) :
  firstAnswer l = None <-> Forall (fun m => replicaAnswer r tr st key m = None) l.
Proof.
  induction l as [|m l IH]; simpl.
  - split; auto.
  - destruct (replicaAnswer r tr st key m) as [w|] eqn:Hm.
    + split; [discriminate|]. intros H; inversion H; congruence.
    + rewrite IH. split; [auto|]. intros H; inversion H; auto.
Qed.

Variable value : string.

Lemma fold_putStep (l : list NodeInfo) (st0 : KV.Store) (calls : list string)
    (errs : list ReplicaError) :
  fold_left (putStep r tr key value) l (st0, calls, errs) =
  (if existsb (isLocal r) l then KV.Put st0 key value else st0,
   calls ++ remoteHosts r l,
   errs ++ perReplicaErrors r tr key value l).
Proof.
  revert st0 calls errs. unfold remoteHosts, perReplicaErrors.
  induction l as [|n l IH]; intros st0 calls errs; simpl.
  - rewrite !app_nil_r. reflexivity.
  - unfold replicaPutErrors. destruct (isLocal r n) eqn:Hn; simpl.
    + rewrite IH. destruct (existsb (isLocal r) l); simpl.
      * unfold KV.Put. rewrite insert_insert_eq. reflexivity.
      * reflexivity.
    + destruct (remotePut tr (Host n) key value) as [e|code].
      * rewrite IH. rewrite <- !app_assoc. reflexivity.
      * destruct (Z.leb 300 code); rewrite IH; rewrite <- !app_assoc; reflexivity.
Qed.

End WithRouter.

End RouterFacts.

Module RebalanceFacts.
Import HashRing Cluster Views RouterFacts.

(** [Router.Put] in closed form: the local store is written when some
    replica is local, every remote replica is posted to, in order, and the
    error collects the per-replica errors. *)
Lemma Put_closed (r : Router) (tr : Transport) (st : KV.Store)
    (replicas : list NodeInfo) (key value : string) :
  Put r tr st replicas key value =
  match replicas with
  | [] => (st, [], Some NoReplicas)
  | _ => (if existsb (isLocal r) replicas then KV.Put st key value else st,
          remoteHosts r replicas,
          match perReplicaErrors r tr key value replicas with
          | [] => None
          | es => Some (ReplicationErrors es)
          end)
  end.
Proof.
  unfold Put. destruct replicas as [|n l]; [reflexivity|].
  rewrite fold_putStep. simpl app.
  destruct (perReplicaErrors r tr key value (n :: l)); reflexivity.
Qed.

Section WithScan.
Variables (r : Router) (tr : Transport) (replicasOf : string -> list NodeInfo)
  (ctxDone : nat -> bool).

Lemma rebalanceKey_cases (s : RebState) (key : string) :
  let s' := rebalanceKey r tr replicasOf s key in
  (forall k, k <> key -> rb_store s' !! k = rb_store s !! k) /\
  (rb_failed s' = rb_failed s \/
   (rb_failed s' = rb_failed s ++ [key] /\ rb_store s' !! key = rb_store s !! key)) /\
  (rb_store s' !! key = None \/ existsb (isLocal r) (replicasOf key) = true \/
   replicasOf key = [] \/ In key (rb_failed s')).
Proof.
  cbv zeta. unfold rebalanceKey, KV.Get.
  destruct (rb_store s !! key) as [v|] eqn:Hk.
  - destruct (replicasOf key) as [|n0 l] eqn:Hrep.
    + simpl. split; [auto|]. split; [auto|]. right; right; left; reflexivity.
    + destruct (existsb (isLocal r) (n0 :: l)) eqn:Hex.
      * simpl. split; [auto|]. split; [auto|]. right; left; reflexivity.
      * rewrite Put_closed. rewrite Hex.
        destruct (perReplicaErrors r tr key v (n0 :: l)) as [|e es]; simpl.
        -- split; [intros k Hne; unfold KV.Delete; apply lookup_delete_ne; congruence|].
           split; [auto|]. left. unfold KV.Delete. apply lookup_delete_eq.
        -- split; [auto|]. split; [right; auto|].
           right; right; right. apply in_or_app. right. left. reflexivity.
  - simpl. split; [auto|]. split; [auto|]. left; exact Hk.
Qed.

Lemma rebalanceLoop_spec (keys : list string) :
  forall i s s', List.NoDup keys ->
  rebalanceLoop r tr replicasOf ctxDone i keys s = (s', RebDone) ->
  (forall k, ~ In k keys -> rb_store s' !! k = rb_store s !! k) /\
  (forall k, In k keys -> rb_store s' !! k = None \/
     existsb (isLocal r) (replicasOf k) = true \/ replicasOf k = [] \/ In k (rb_failed s')) /\
  (forall k, In k (rb_failed s) -> In k (rb_failed s')) /\
  (forall k, In k (rb_failed s') -> In k (rb_failed s) \/
     (In k keys /\ rb_store s' !! k = rb_store s !! k)).
Proof.
  induction keys as [|key rest IH]; intros i s s' Hnd Hrun; simpl in Hrun.
  - injection Hrun as <-. split; [auto|]. split; [intros k []|].
    split; [auto|]. intros k Hk; left; exact Hk.
  - destruct (ctxDone i); [discriminate|].
    apply NoDup_cons_iff in Hnd as [Hnot Hnd].
    set (s1 := rebalanceKey r tr replicasOf s key) in *.
    destruct (rebalanceKey_cases s key) as (Hoth & Hfl & Hself). fold s1 in Hoth, Hfl, Hself.
    destruct (IH (S i) s1 s' Hnd Hrun) as (I1 & I2 & I3 & I4).
    split; [|split; [|split]].
    + intros k Hk. rewrite I1 by (intros Hin; apply Hk; right; exact Hin).
      apply Hoth. intros ->. apply Hk. left. reflexivity.
    + intros k [<-|Hk]; [|exact (I2 k Hk)].
      rewrite (I1 key Hnot).
      destruct Hself as [H|[H|[H|H]]].
      * left; exact H.
      * right; left; exact H.
      * right; right; left; exact H.
      * right; right; right; exact (I3 _ H).
    + intros k Hk. apply I3. destruct Hfl as [-> | [-> _]]; [exact Hk|].
      apply in_or_app; left; exact Hk.
    + intros k Hk. destruct (I4 k Hk) as [H1|[Hin Heq]].
      * destruct Hfl as [Heq1 | [Heq1 Hst]]; rewrite Heq1 in H1; [left; exact H1|].
        apply in_app_or in H1 as [H1|[<-|[]]]; [left; exact H1|].
        right. split; [left; reflexivity|]. rewrite (I1 key Hnot). exact Hst.
      * right. split; [right; exact Hin|]. rewrite Heq. apply Hoth.
        intros ->. contradiction.
Qed.

End WithScan.

End RebalanceFacts.

(* ===================================================================== *)
(** ** Lemmas on the hash and on the bootstrap parser *)

Module HashFacts.
Import HashRing Views.

Lemma fnv32a_write_ref (h : Z) (s : string) :
  fnv32a_write h s =
  fold_left (fun h b => (Z.lxor h (Z.of_nat (nat_of_ascii b)) * 16777619) mod 2 ^ 32)
    (list_ascii_of_string s) h.
Proof.
  revert h; induction s as [|c s IH]; intros h; simpl; [reflexivity|].
  rewrite IH. unfold fnv32a_step, prime32. rewrite Z.land_ones by lia. reflexivity.
Qed.

Lemma fold_addSlot_hashes (n : NodeInfo) (l : list nat) (r : Ring) :
  hashes (fold_left (addSlot n) l r) = hashes r ++ map (fun i => hashFn (vKey n i)) l.
Proof.
  revert r; induction l as [|i l IH]; intros r; simpl.
  - rewrite app_nil_r. reflexivity.
  - rewrite IH. simpl. rewrite <- app_assoc. reflexivity.
Qed.

End HashFacts.

Module ParseFacts.
Import HashRing Main Views.

(** The nodes one entry yields in [parseParts]. *)
Definition entryNodes (p0 : string) : list NodeInfo :=
  let p := TrimSpace p0 in
  if String.eqb p EmptyString then []
  else match SplitN2 p "=" with
       | [id; host] => [mkNodeInfo id host]
       | _ => []
       end.

Lemma stripPrefix_length (p l r : list ascii) :
  stripPrefix p l = Some r -> (length r + length p = length l)%nat.
Proof.
  revert l; induction p as [|x p IH]; intros [|y l]; simpl; try discriminate.
  - intros [= <-]. simpl. lia.
  - intros [= <-]. simpl. lia.
  - destruct (ascii_dec x y); [|discriminate]. intros H. apply IH in H. lia.
Qed.

Lemma afterRune_shorter (encs : list (list ascii)) (l r : list ascii) :
  Forall (fun e => e <> []) encs -> afterRune encs l = Some r -> (length r < length l)%nat.
Proof.
  induction encs as [|e es IH]; simpl; [discriminate|]. intros Hne.
  inversion Hne as [|? ? He Hes]; subst.
  destruct (stripPrefix e l) as [r'|] eqn:E.
  - intros [= <-]. apply stripPrefix_length in E. destruct e; [contradiction|].
    simpl in E. lia.
  - exact (IH Hes).
Qed.

Lemma afterRune_nil (encs : list (list ascii)) :
  Forall (fun e => e <> []) encs -> afterRune encs [] = None.
Proof.
  induction encs as [|e es IH]; simpl; [reflexivity|]. intros Hne.
  inversion Hne as [|? ? He Hes]; subst. destruct e; [contradiction|]. exact (IH Hes).
Qed.

(** With at least [length l] iterations, [dropRunes] stops on a list that
    does not start with a rune of [encs]. *)
Lemma dropRunes_done (encs : list (list ascii)) (f : nat) (l : list ascii) :
  Forall (fun e => e <> []) encs -> (length l <= f)%nat ->
  afterRune encs (dropRunes encs f l) = None.
Proof.
  intros Hne. revert l; induction f as [|f IH]; intros l Hl; simpl.
  - destruct l; [apply afterRune_nil, Hne|simpl in Hl; lia].
  - destruct (afterRune encs l) as [l'|] eqn:E; [|exact E].
    apply IH. apply afterRune_shorter in E; [lia|exact Hne].
Qed.

Lemma spaceRunes_nonempty : Forall (fun e => e <> []) spaceRunes.
Proof. unfold spaceRunes. simpl. repeat constructor; discriminate. Qed.

Lemma spaceRunes_rev_nonempty : Forall (fun e => e <> []) (map (@rev ascii) spaceRunes).
Proof. unfold spaceRunes. simpl. repeat constructor; discriminate. Qed.

(** [TrimLeftSpace] leaves no leading white space rune. *)
Lemma TrimLeftSpace_done (l : list ascii) : afterRune spaceRunes (TrimLeftSpace l) = None.
Proof. apply dropRunes_done; [exact spaceRunes_nonempty|lia]. Qed.

(** [TrimRightSpace] leaves no trailing white space rune. *)
Lemma TrimRightSpace_done (l : list ascii) :
  afterRune (map (@rev ascii) spaceRunes) (rev (TrimRightSpace l)) = None.
Proof.
  unfold TrimRightSpace. rewrite rev_involutive.
  apply dropRunes_done; [exact spaceRunes_rev_nonempty|rewrite length_rev; lia].
Qed.

(** U+00A0, U+3000 and U+2009 are trimmed like ASCII white space; a lone
    continuation byte or a truncated sequence is not. *)
Lemma TrimSpace_examples :
  let nbsp := String (ascii_of_nat 194) (String (ascii_of_nat 160) EmptyString) in
  let ideo := String (ascii_of_nat 227) (String (ascii_of_nat 128)
                (String (ascii_of_nat 128) EmptyString)) in
  let thin := String (ascii_of_nat 226) (String (ascii_of_nat 128)
                (String (ascii_of_nat 137) EmptyString)) in
  let tab := String (ascii_of_nat 9) EmptyString in
  let cont := String (ascii_of_nat 160) EmptyString in
  let cut2 := String (ascii_of_nat 226) (String (ascii_of_nat 128) EmptyString) in
  TrimSpace (nbsp ++ "node1=h1")%string = "node1=h1"%string /\
  TrimSpace (" node1=h1" ++ ideo ++ tab ++ thin)%string = "node1=h1"%string /\
  TrimSpace (cont ++ "x")%string = (cont ++ "x")%string /\
  TrimSpace ("x" ++ cut2)%string = ("x" ++ cut2)%string.
Proof. vm_compute. repeat split. Qed.

Lemma parseParts_concat (parts : list string) :
  parseParts parts = concat (map entryNodes parts).
Proof.
  induction parts as [|p ps IH]; simpl; [reflexivity|].
  unfold entryNodes. destruct (String.eqb (TrimSpace p) EmptyString); [exact IH|].
  destruct (SplitN2 (TrimSpace p) "=") as [|a [|b [|c l]]]; simpl; try exact IH.
  rewrite IH. reflexivity.
Qed.

Lemma parseClusterNodes_parts (env : string) :
  parseClusterNodes env = parseParts (Split env ",").
Proof.
  unfold parseClusterNodes. destruct (String.eqb_spec env EmptyString) as [->|_];
    reflexivity.
Qed.

Lemma cut_none (c : ascii) (s : string) : has_char c s = false -> cut s c = None.
Proof.
  induction s as [|x s IH]; simpl; [reflexivity|].
  destruct (ascii_dec x c); [discriminate|]. intros H. rewrite (IH H). reflexivity.
Qed.

Lemma cut_first (c : ascii) (id host : string) :
  has_char c id = false -> cut (id ++ String c host) c = Some (id, host).
Proof.
  induction id as [|x id IH]; simpl.
  - intros _. destruct (ascii_dec c c); [reflexivity|contradiction].
  - destruct (ascii_dec x c); [discriminate|]. intros H. rewrite (IH H). reflexivity.
Qed.

Lemma entryNodes_spec (p : string) : entrySpec p (entryNodes p).
Proof.
  unfold entrySpec, entryNodes. cbv zeta.
  split; [|split].
  - intros ->. reflexivity.
  - intros Hno. destruct (String.eqb (TrimSpace p) EmptyString); [reflexivity|].
    unfold SplitN2. rewrite (cut_none _ _ Hno). reflexivity.
  - intros id host Heq Hid. rewrite Heq.
    assert (Hne : String.eqb (id ++ String "=" host) EmptyString = false)
      by (destruct id; reflexivity).
    rewrite Hne. unfold SplitN2. rewrite (cut_first _ _ _ Hid). reflexivity.
Qed.

End ParseFacts.

Module RingFacts.
Import HashRing Configs WalkFacts.

Lemma ring1_len : length (hashes ring1) = 100%nat.
Proof. vm_compute. reflexivity. Qed.

Lemma ring1_size : map_size (hashMap ring1) = 100%nat.
Proof. vm_compute. reflexivity. Qed.

Lemma ring1_owner_check :
  forallb (fun i => bool_decide (nodeAt ring1 (hashAt ring1 i) = node1))
    (seq 0 (length (hashes ring1))) = true.
Proof. vm_compute. reflexivity. Qed.

(** Every slot of [ring1] belongs to [node1]. *)
Lemma ring1_owner (i : nat) :
  (i < length (hashes ring1))%nat -> nodeAt ring1 (hashAt ring1 i) = node1.
Proof.
  intros Hi.
  pose proof (forallb_seq_lt _ _ ring1_owner_check i Hi) as H.
  apply bool_decide_eq_true in H. exact H.
Qed.

End RingFacts.

(* ===================================================================== *)
(** ** The claims *)

Module Claims.
Import HashRing Configs KV Cluster API Main Views Scenarios
  WalkFacts RouterFacts RebalanceFacts HashFacts ParseFacts RingFacts.

(** C1. The replica walk is claimed to terminate on every ring,
    key and factor, stopping once the seen ids match the count of physical
    nodes. The [break] test compares [len(seen)] with [len(r.hashMap)], the
    number of slots (100 per node), not of nodes, and the factor is clamped
    by [len(r.hashes)]. On the default single-node ring [ring1]
    ([CLUSTER_NODES=node1=node1:8080], [REPLICATION_FACTOR=3]) the walk for
    "foo" never exits: it returns [None] for every bound [fuel]. *)
Theorem C1_default_ring_walk_diverges :
  forall fuel, GetReplicasForKey fuel ring1 "foo" 3 = None.
Proof. apply (diverges_after_sound 1). vm_compute. reflexivity. Qed.

(** C2. On a single-node ring, [GetReplicasForKey(k, r)] is
    claimed to return [[thatNode]] for every key and every [r >= 1]. On
    [ring1], for every key and every [r >= 2], the walk never exits. *)
Theorem C2_single_node_ring_diverges (key : string) (rFactor : Z) :
  2 <= rFactor -> forall fuel, GetReplicasForKey fuel ring1 key rFactor = None.
Proof.
  intros Hr. apply (one_owner_diverges ring1 node1 key rFactor).
  - rewrite ring1_len. lia.
  - exact ring1_owner.
  - rewrite ring1_size. discriminate.
  - exact Hr.
Qed.

Lemma C2_single_node_ring_diverges_witness :
  2 <= 2 /\ GetReplicasForKey 1000 ring1 "alpha" 2 = None.
Proof.
  split; [lia|]. apply (C2_single_node_ring_diverges "alpha" 2). lia.
Defined.

(** C3. The replica list is claimed to have length
    [min(rFactor, distinct nodes)] without duplicates. On the three-node
    ring [ring3] with factor 4, the walk for "foo" collects the three
    nodes and then never exits, so no list is returned. *)
Theorem C3_three_node_ring_diverges :
  forall fuel, GetReplicasForKey fuel ring3 "foo" 4 = None.
Proof. apply (diverges_after_sound 40). vm_compute. reflexivity. Qed.

(** C8. The hash is 32-bit FNV-1a over the bytes of the string, and
    [hashFn "foo" = 0xA9F37ED7]. Key placement starts the walk at the first
    slot at or after the FNV-1a hash of the key. Slot [i] of node [n] is
    hashed as [ID n ++ "#" ++ decimal i], for example "node1#42". *)
Theorem C8_fnv1a_hash (key : string) (n : NodeInfo) (r : Ring) :
  hashFn key = fnv1a32_ref key /\
  hashFn "foo" = 0xA9F37ED7 /\
  (forall fuel rFactor,
     GetReplicasForKey fuel r key rFactor =
     if Nat.eqb (length (hashes r)) 0 || Z.leb rFactor 0 then Some []
     else walk fuel r (effFactor r rFactor)
            (mkWalk (startIndex r (fnv1a32_ref key)) [] ∅)) /\
  hashes (addNodeNoLock r n) =
    hashes r ++ map (fun i => hashFn (ID n ++ String "#" (itoa i)))
                    (seq 0 (Z.to_nat (vNodes r))) /\
  vKey node1 42 = "node1#42"%string /\ vKey node1 7 = "node1#7"%string.
Proof.
  assert (Href : forall s, hashFn s = fnv1a32_ref s)
    by (intros s; unfold hashFn, fnv1a32_ref; apply fnv32a_write_ref).
  split; [apply Href|]. split; [vm_compute; reflexivity|].
  split; [|split; [apply fold_addSlot_hashes|split; reflexivity]].
  intros fuel rFactor. unfold GetReplicasForKey. rewrite Href. reflexivity.
Qed.

(** C9. A store operation touches only its key: after [Put(k, v)],
    [Get(k')] is unchanged for [k' <> k] and [Get(k) = (v, true)]; after
    [Delete(k)], [Get(k')] is unchanged and [Get(k)] reports absence. *)
Theorem C9_store_frame (st : KV.Store) (k k' v : string) :
  k' <> k ->
  KV.Get (KV.Put st k v) k' = KV.Get st k' /\
  KV.Get (KV.Put st k v) k = (v, true) /\
  KV.Get (KV.Delete st k) k' = KV.Get st k' /\
  snd (KV.Get (KV.Delete st k) k) = false.
Proof.
  intros Hne. unfold KV.Get, KV.Put, KV.Delete.
  rewrite lookup_insert_ne by congruence. rewrite lookup_insert_eq.
  rewrite lookup_delete_ne by congruence. rewrite lookup_delete_eq.
  repeat split; reflexivity.
Qed.

Lemma C9_store_frame_witness :
  "beta"%string <> "alpha"%string /\
  KV.Get (KV.Put store_alpha "alpha" "two") "beta" = KV.Get store_alpha "beta" /\
  KV.Get (KV.Put store_alpha "alpha" "two") "alpha" = ("two"%string, true) /\
  KV.Get (KV.Delete store_alpha "alpha") "beta" = KV.Get store_alpha "beta" /\
  snd (KV.Get (KV.Delete store_alpha "alpha") "alpha") = false.
Proof.
  split; [discriminate|]. apply (C9_store_frame store_alpha "alpha" "beta" "two").
  discriminate.
Defined.

(** C10. [parseClusterNodes] is total and works entry by entry: the
    CLUSTER_NODES string is split at ',', each entry yields its own nodes,
    in input order; an entry blank after trimming its leading and trailing
    white space ([strings.TrimSpace], Unicode white space included) or
    without '=' yields none, and an entry [id=host] ([id] before the first '=') yields exactly
    the node with that id and host. *)
Theorem C10_parseClusterNodes_entries (env : string) :
  exists outs, parseClusterNodes env = concat outs /\
               Forall2 entrySpec (Split env ",") outs.
Proof.
  exists (map entryNodes (Split env ",")).
  rewrite parseClusterNodes_parts, parseParts_concat. split; [reflexivity|].
  induction (Split env ",") as [|p ps IH]; simpl; constructor.
  - apply entryNodes_spec.
  - exact IH.
Qed.

(** C4. For a non-empty replica list, [Router.Get] returns [(v, true, nil)]
    exactly when [v] is the answer of the first replica, in ring order,
    that answers (a local hit, or a remote response that is neither 404 nor
    an error status), all replicas before it not answering. It returns
    [("", false, nil)] (NotFound) exactly when no replica answers, and it
    never returns an error. A remote replica with a transport error or a
    404 does not answer, so the walk goes on past it. *)
Theorem C4_get_first_answer (r : Router) (tr : Transport) (st : KV.Store)
    (replicas : list NodeInfo) (key : string) :
  replicas <> [] ->
  (forall v, Get r tr st replicas key = (v, true, None) <->
     exists pre n post, replicas = pre ++ n :: post /\
       Forall (fun m => replicaAnswer r tr st key m = None) pre /\
       replicaAnswer r tr st key n = Some v) /\
  (Get r tr st replicas key = (EmptyString, false, None) <->
     Forall (fun m => replicaAnswer r tr st key m = None) replicas) /\
  (exists v found, Get r tr st replicas key = (v, found, None)) /\
  (forall n, isLocal r n = false ->
     (exists e, remoteGet tr (Host n) key = GetErr e) \/
     (exists body, remoteGet tr (Host n) key = GetResp 404 body) ->
     replicaAnswer r tr st key n = None).
Proof.
  intros Hne.
  assert (HG : Get r tr st replicas key = getLoop r tr st key replicas)
    by (destruct replicas; [contradiction|reflexivity]).
  rewrite HG, getLoop_firstAnswer.
  split; [|split; [|split]].
  - intros v. rewrite <- firstAnswer_Some.
    destruct (firstAnswer r tr st key replicas) as [w|]; split; congruence.
  - rewrite <- firstAnswer_None.
    destruct (firstAnswer r tr st key replicas) as [w|]; split; congruence.
  - destruct (firstAnswer r tr st key replicas) as [w|]; eexists; eexists; reflexivity.
  - intros n Hloc [[e He]|[body Hb]]; unfold replicaAnswer; rewrite Hloc.
    + rewrite He. reflexivity.
    + rewrite Hb. reflexivity.
Qed.

Lemma C4_get_first_answer_witness :
  [Configs.node2; Configs.node1] <> [] /\
  Get router1 healthy store_alpha [Configs.node2; Configs.node1] "alpha"
    = ("one"%string, true, None).
Proof.
  split; [discriminate|].
  apply (proj1 (C4_get_first_answer router1 healthy store_alpha
                  [Configs.node2; Configs.node1] "alpha" ltac:(discriminate))).
  exists [Configs.node2], Configs.node1, [].
  split; [reflexivity|]. split; [repeat constructor|reflexivity].
Defined.

(** C5, counterexample. On an empty ring the replica list is empty and
    [Router.Put] returns an error although no per-replica error was
    recorded and no replica was contacted. *)
Lemma C5_empty_ring_put_error :
  replicasIn 1 emptyRing 3 "k" = [] /\
  Put router1 healthy ∅ (replicasIn 1 emptyRing 3 "k") "k" "v" = (∅, [], Some NoReplicas) /\
  perReplicaErrors router1 healthy "k" "v" (replicasIn 1 emptyRing 3 "k") = [].
Proof. vm_compute. split; [reflexivity|]. split; reflexivity. Qed.

(** C5, amended. For a non-empty replica list, [Router.Put] writes the
    local store when some replica's id is [selfId] (unconditionally), posts
    to every remote replica in order whatever the earlier outcomes, records
    a transport error or a status [>= 300] of each, and returns an error
    exactly when some per-replica error was recorded, carrying all of them.
    For an empty replica list it returns [NoReplicas] and contacts nobody. *)
Theorem C5_put_fanout (r : Router) (tr : Transport) (st : KV.Store)
    (replicas : list NodeInfo) (key value : string) :
  Put r tr st replicas key value =
  match replicas with
  | [] => (st, [], Some NoReplicas)
  | _ => (if existsb (isLocal r) replicas then KV.Put st key value else st,
          remoteHosts r replicas,
          match perReplicaErrors r tr key value replicas with
          | [] => None
          | es => Some (ReplicationErrors es)
          end)
  end.
Proof. apply Put_closed. Qed.

(** C6, counterexample. On an empty ring the replica list of a local key
    is empty, so [RebalanceLocalKeys] keeps the key without calling
    [Router.Put]: after a completed scan the key is still present, this
    node is not among its replicas, and no Put failed for it. *)
Lemma C6_empty_ring_key_kept :
  let res := RebalanceLocalKeys router1 healthy (replicasIn 1 emptyRing 3)
               (fun _ => false) store_alpha ["alpha"%string] in
  snd res = RebDone /\
  is_Some (rb_store (fst res) !! "alpha"%string) /\
  existsb (isLocal router1) (replicasIn 1 emptyRing 3 "alpha") = false /\
  ~ In "alpha"%string (rb_failed (fst res)).
Proof.
  vm_compute. split; [reflexivity|]. split; [eexists; reflexivity|].
  split; [reflexivity|]. intros [].
Qed.

(** C6, amended. When [RebalanceLocalKeys] completes its scan over the
    snapshot of the store's keys, every key still present has [selfId]
    among its replicas, or had its [Router.Put] fail during the scan, or
    has an empty replica list (an empty ring); a key whose Put failed is
    left as it was; and a key with a non-empty replica list not naming
    [selfId] whose Put did not fail is deleted. *)
Theorem C6_rebalance_safety (r : Router) (tr : Transport)
    (replicasOf : string -> list NodeInfo) (ctxDone : nat -> bool)
    (st : KV.Store) (keys : list string) (s' : RebState) :
  List.NoDup keys ->
  (forall k, In k keys <-> is_Some (st !! k)) ->
  RebalanceLocalKeys r tr replicasOf ctxDone st keys = (s', RebDone) ->
  (forall k, is_Some (rb_store s' !! k) ->
     existsb (isLocal r) (replicasOf k) = true \/ In k (rb_failed s') \/
     replicasOf k = []) /\
  (forall k, In k (rb_failed s') -> rb_store s' !! k = st !! k) /\
  (forall k, In k keys -> replicasOf k <> [] ->
     existsb (isLocal r) (replicasOf k) = false -> ~ In k (rb_failed s') ->
     rb_store s' !! k = None).
Proof.
  intros Hnd Hsnap Hrun.
  destruct (rebalanceLoop_spec r tr replicasOf ctxDone keys 0 _ s' Hnd Hrun)
    as (I1 & I2 & _ & I4); simpl in I1, I4.
  split; [|split].
  - intros k Hk. destruct (in_dec string_dec k keys) as [Hin|Hout].
    + destruct (I2 k Hin) as [H|[H|[H|H]]].
      * rewrite H in Hk. destruct Hk as [x Hx]. discriminate.
      * left; exact H.
      * right; right; exact H.
      * right; left; exact H.
    + exfalso. apply Hout, Hsnap. rewrite <- (I1 k Hout). exact Hk.
  - intros k Hk. destruct (I4 k Hk) as [[]|[_ H]]. exact H.
  - intros k Hin Hne Hloc Hnf. destruct (I2 k Hin) as [H|[H|[H|H]]].
    + exact H.
    + congruence.
    + contradiction.
    + contradiction.
Qed.

Lemma C6_rebalance_safety_witness :
  let res := RebalanceLocalKeys router1 healthy (fun _ => [Configs.node2])
               (fun _ => false) store_alpha ["alpha"%string] in
  List.NoDup ["alpha"%string] /\
  (forall k, is_Some (rb_store (fst res) !! k) ->
     existsb (isLocal router1) [Configs.node2] = true \/ In k (rb_failed (fst res)) \/
     [Configs.node2] = []).
Proof.
  cbv zeta. split; [repeat constructor; intros []|].
  intros k.
  apply (C6_rebalance_safety router1 healthy (fun _ => [Configs.node2]) (fun _ => false)
           store_alpha ["alpha"%string]).
  - repeat constructor. intros [].
  - intros x. unfold store_alpha. rewrite lookup_insert_is_Some'. simpl.
    split; [intros [<-|[]]; left; reflexivity|].
    intros [<-|H]; [left; reflexivity|]. rewrite lookup_empty in H. destruct H as [y Hy].
    discriminate.
  - vm_compute. reflexivity.
Defined.

(** C7, counterexample. Node [node1] with factor 2 coordinates a GET of
    "foo" on the three-node ring; the replicas are [node2] and [node3]
    and both are unreachable. The handler replies 404, not 502. *)
Lemma C7_transport_failures_reply_404 :
  replicasIn 1000 ring3 2 "foo" = [Configs.node2; Configs.node3] /\
  HandleGetDistributed
    (Get router1_rf2 unreachable ∅ (replicasIn 1000 ring3 2 "foo") "foo")
    = (404, "not found"%string).
Proof. vm_compute. split; reflexivity. Qed.

(** C7, amended. When a client GET exhausts a non-empty replica list
    without an answer, whether the replicas failed with transport errors
    or reported the key absent, the handler replies 404 (not found); it
    replies 502 only when the replica list is empty (no replicas). *)
Theorem C7_exhausted_get_replies_404 (r : Router) (tr : Transport) (st : KV.Store)
    (replicas : list NodeInfo) (key : string) :
  replicas <> [] ->
  Forall (fun m => replicaAnswer r tr st key m = None) replicas ->
  HandleGetDistributed (Get r tr st replicas key) = (404, "not found"%string) /\
  fst (HandleGetDistributed (Get r tr st [] key)) = 502.
Proof.
  intros Hne Hall. split; [|reflexivity].
  assert (HG : Get r tr st replicas key = getLoop r tr st key replicas)
    by (destruct replicas; [contradiction|reflexivity]).
  rewrite HG, getLoop_firstAnswer.
  apply firstAnswer_None in Hall. rewrite Hall. reflexivity.
Qed.

Lemma C7_exhausted_get_replies_404_witness :
  [Configs.node2; Configs.node3] <> [] /\
  HandleGetDistributed (Get router1_rf2 unreachable ∅ [Configs.node2; Configs.node3] "foo")
    = (404, "not found"%string).
Proof.
  split; [discriminate|].
  apply (C7_exhausted_get_replies_404 router1_rf2 unreachable ∅
           [Configs.node2; Configs.node3] "foo").
  - discriminate.
  - repeat constructor.
Defined.

End Claims.

(* ===================================================================== *)
(** ** Lemmas on sorting, binary search and slot removal *)

Module SortFacts.
Import HashRing.

Lemma insert_sorted_perm (x : Z) (l : list Z) : Permutation (insert_sorted x l) (x :: l).
Proof.
  induction l as [|y l IH]; simpl; [reflexivity|].
  destruct (Z.ltb y x); [|reflexivity].
  rewrite IH. apply perm_swap.
Qed.

Lemma sort_Z_perm (l : list Z) : Permutation (sort_Z l) l.
Proof.
  induction l as [|x l IH]; simpl; [reflexivity|].
  rewrite insert_sorted_perm. apply perm_skip, IH.
Qed.

Lemma insert_sorted_hd (a x : Z) (l : list Z) :
  HdRel Z.le a l -> a <= x -> HdRel Z.le a (insert_sorted x l).
Proof.
  intros Hd Hax. destruct l as [|y l]; simpl; [constructor; exact Hax|].
  destruct (Z.ltb y x); constructor; [inversion Hd; assumption|exact Hax].
Qed.

Lemma insert_sorted_sorted (x : Z) (l : list Z) :
  Sorted Z.le l -> Sorted Z.le (insert_sorted x l).
Proof.
  induction l as [|y l IH]; intros Hs; simpl; [repeat constructor|].
  destruct (Z.ltb_spec y x) as [Hlt|Hge].
  - apply Sorted_inv in Hs as [Hs Hd]. constructor; [apply IH, Hs|].
    apply insert_sorted_hd; [exact Hd|lia].
  - constructor; [exact Hs|]. constructor. lia.
Qed.

Lemma sort_Z_sorted (l : list Z) : Sorted Z.le (sort_Z l).
Proof.
  induction l as [|x l IH]; simpl; [constructor|]. apply insert_sorted_sorted, IH.
Qed.

Lemma sorted_nth_le (l : list Z) :
  Sorted Z.le l -> forall i j, (i <= j)%nat -> (j < length l)%nat ->
  nth i l 0 <= nth j l 0.
Proof.
  intros Hs. apply Sorted_StronglySorted in Hs; [|intros a b c; lia].
  induction Hs as [|a l Hs IH Hall]; intros i j Hij Hj; simpl in Hj; [lia|].
  destruct i as [|i], j as [|j]; simpl; try lia.
  - rewrite Forall_forall in Hall. apply Hall, list_elem_of_In, nth_In. lia.
  - apply IH; lia.
Qed.

(** The loop of [sort.Search] on a monotone predicate: all indices below
    the result fail, and the result, when below [n], holds. *)
Lemma search_loop_spec (n : nat) (f : nat -> bool)
    (Hmono : forall a b, (a <= b)%nat -> (b < n)%nat -> f a = true -> f b = true) :
  forall fuel i j, (i <= j)%nat -> (j <= n)%nat -> (j - i <= fuel)%nat ->
  (forall k, (k < i)%nat -> f k = false) ->
  ((j < n)%nat -> f j = true) ->
  let x := search_loop fuel f i j in
  (x <= n)%nat /\ (forall k, (k < x)%nat -> f k = false) /\ ((x < n)%nat -> f x = true).
Proof.
  induction fuel as [|fuel IH]; intros i j Hij Hjn Hfuel Hlow Hhigh; simpl.
  - assert (i = j) by lia. subst j. auto.
  - destruct (Nat.ltb_spec i j) as [Hlt|Hge].
    + pose proof (Nat.div2_odd (i + j)) as Hd.
      set (h := Nat.div2 (i + j)) in *.
      assert (Hh : (i <= h < j)%nat) by (destruct (Nat.odd (i + j)); simpl in Hd; lia).
      destruct (f h) eqn:Hfh.
      * apply IH; try lia; auto.
      * apply IH; try lia.
        intros k Hk. destruct (Nat.lt_ge_cases k i) as [Hki|Hki]; [auto|].
        destruct (f k) eqn:Hfk; [|reflexivity].
        rewrite (Hmono k h ltac:(lia) ltac:(lia) Hfk) in Hfh. discriminate.
        exact Hhigh.
    + assert (i = j) by lia. subst j. auto.
Qed.

Lemma fold_removeStep_app (id : string) (l : list Z) (hm : gmap Z NodeInfo) (acc : list Z) :
  snd (fold_left (removeStep id) l (hm, acc)) =
  acc ++ snd (fold_left (removeStep id) l (hm, [])).
Proof.
  revert hm acc; induction l as [|h l IH]; intros hm acc; simpl.
  - rewrite app_nil_r. reflexivity.
  - destruct (String.eqb (ID (default zeroNode (hm !! h))) id).
    + apply IH.
    + rewrite IH. rewrite (IH hm [h]). rewrite app_assoc. reflexivity.
Qed.

(** The invariant of the [RemoveNode] pass: a kept hash never resolves to
    [id], and an entry whose owner is not [id] is never deleted. *)
Lemma fold_removeStep_spec (id : string) :
  forall (l : list Z) (hm : gmap Z NodeInfo) (acc : list Z),
  (forall h, In h acc -> ID (default zeroNode (hm !! h)) <> id) ->
  let res := fold_left (removeStep id) l (hm, acc) in
  (forall h, In h (snd res) -> ID (default zeroNode (fst res !! h)) <> id) /\
  (forall h n, hm !! h = Some n -> ID n <> id -> fst res !! h = Some n) /\
  (forall h, In h acc -> In h (snd res)) /\
  (forall h n, In h l -> hm !! h = Some n -> ID n <> id -> In h (snd res)).
Proof.
  induction l as [|h l IH]; intros hm acc Hacc; simpl.
  - split; [exact Hacc|]. split; [auto|]. split; [auto|]. intros _ _ [].
  - destruct (String.eqb_spec (ID (default zeroNode (hm !! h))) id) as [Heq|Hne].
    + assert (Hacc' : forall h', In h' acc -> ID (default zeroNode (delete h hm !! h')) <> id).
      { intros h' Hin. destruct (decide (h' = h)) as [->|Hne'].
        - exfalso. exact (Hacc h Hin Heq).
        - rewrite lookup_delete_ne by congruence. apply Hacc, Hin. }
      destruct (IH (delete h hm) acc Hacc') as (I1 & I2 & I3 & I4).
      split; [exact I1|]. split; [|split; [exact I3|]].
      * intros h' n Hn Hnid. apply I2; [|exact Hnid].
        destruct (decide (h' = h)) as [->|Hne'].
        -- rewrite Hn in Heq. simpl in Heq. contradiction.
        -- rewrite lookup_delete_ne by congruence. exact Hn.
      * intros h' n [<-|Hin] Hn Hnid.
        -- rewrite Hn in Heq. simpl in Heq. contradiction.
        -- apply (I4 h' n Hin); [|exact Hnid].
           rewrite lookup_delete_ne; [exact Hn|]. intros ->. rewrite Hn in Heq. simpl in Heq.
           contradiction.
    + assert (Hacc' : forall h', In h' (acc ++ [h]) -> ID (default zeroNode (hm !! h')) <> id).
      { intros h' Hin. apply in_app_or in Hin as [Hin|[<-|[]]]; [apply Hacc, Hin|exact Hne]. }
      destruct (IH hm (acc ++ [h]) Hacc') as (I1 & I2 & I3 & I4).
      split; [exact I1|]. split; [exact I2|]. split.
      * intros h' Hin. apply I3, in_or_app. left; exact Hin.
      * intros h' n [<-|Hin] Hn Hnid; [apply I3, in_or_app; right; left; reflexivity|].
        exact (I4 h' n Hin Hn Hnid).
Qed.

End SortFacts.

(* ===================================================================== *)
(** ** The invariant of the replica walk *)

Module WalkInv.
Import HashRing WalkFacts.

(** [seen] is the set of the ids of [replicas], which are pairwise
    distinct, and [idx] is a slot index. *)
Definition walkInv (r : Ring) (s : WalkState) : Prop :=
  NoDup (map ID (w_replicas s)) /\
  w_seen s = list_to_set (map ID (w_replicas s)) /\
  (w_idx s < length (hashes r))%nat.

(** [n] is what [hashMap] gives for some slot of [hashes]. *)
Definition slotOwner (r : Ring) (n : NodeInfo) : Prop :=
  exists i, (i < length (hashes r))%nat /\ nodeAt r (hashAt r i) = n.

(** The ids of the owners of the slots. *)
Definition owners (r : Ring) : gset string :=
  list_to_set (map (fun i => ID (nodeAt r (hashAt r i))) (seq 0 (length (hashes r)))).

Lemma walkStep_inv (r : Ring) (rF : Z) (s : WalkState) :
  walkInv r s -> Forall (slotOwner r) (w_replicas s) ->
  Z.of_nat (length (w_replicas s)) <= rF ->
  match walkStep r rF s with
  | inl res =>
      NoDup (map ID res) /\ Forall (slotOwner r) res /\ Z.of_nat (length res) <= rF /\
      w_replicas s `prefix_of` res /\
      (rF <= Z.of_nat (length res) \/
       size (list_to_set (map ID res) : gset string) = map_size (hashMap r))
  | inr s' =>
      walkInv r s' /\ Forall (slotOwner r) (w_replicas s') /\
      Z.of_nat (length (w_replicas s')) <= rF /\
      w_replicas s `prefix_of` w_replicas s' /\ w_seen s ⊆ w_seen s' /\
      ID (nodeAt r (hashAt r (w_idx s))) ∈ w_seen s' /\
      w_idx s' = Nat.modulo (S (w_idx s)) (length (hashes r))
  end.
Proof.
  destruct s as [idx reps seen]. intros (Hnd & Hseen & Hidx) Hown Hlen.
  cbn [w_idx w_replicas w_seen] in *. subst seen. unfold walkStep.
  cbn [w_idx w_replicas w_seen].
  destruct (Z.ltb_spec (Z.of_nat (length reps)) rF) as [Hlt|Hge].
  2: { split; [exact Hnd|]. split; [exact Hown|]. split; [exact Hlen|].
       split; [reflexivity|]. left; exact Hge. }
  assert (Hn : length (hashes r) <> 0%nat) by lia.
  assert (Hnode : slotOwner r (nodeAt r (hashAt r idx))) by (exists idx; split; auto).
  destruct (decide (ID (nodeAt r (hashAt r idx)) ∈ (list_to_set (map ID reps) : gset string)))
    as [Hin|Hnin]; cbv beta iota zeta.
  - destruct (Nat.eqb_spec (size (list_to_set (map ID reps) : gset string))
                (map_size (hashMap r))) as [Heq|Hne].
    + split; [exact Hnd|]. split; [exact Hown|]. split; [exact Hlen|].
      split; [reflexivity|]. right; exact Heq.
    + cbn [w_idx w_replicas w_seen].
      split; [split; [exact Hnd|]; split; [reflexivity|]; apply Nat.mod_upper_bound, Hn|].
      split; [exact Hown|]. split; [exact Hlen|]. split; [reflexivity|].
      split; [reflexivity|]. split; [exact Hin|reflexivity].
  - assert (Hnd' : NoDup (map ID (reps ++ [nodeAt r (hashAt r idx)]))).
    { rewrite map_app. apply NoDup_app. split; [exact Hnd|]. split; [|apply NoDup_singleton].
      intros x Hx Hx'. simpl in Hx'. apply list_elem_of_singleton in Hx'. subst x.
      apply Hnin, elem_of_list_to_set, Hx. }
    assert (Hseen' : {[ID (nodeAt r (hashAt r idx))]} ∪ (list_to_set (map ID reps) : gset string)
                     = list_to_set (map ID (reps ++ [nodeAt r (hashAt r idx)]))).
    { rewrite map_app, list_to_set_app_L. simpl. set_solver. }
    assert (Hown' : Forall (slotOwner r) (reps ++ [nodeAt r (hashAt r idx)]))
      by (apply Forall_app; split; [exact Hown|constructor; [exact Hnode|constructor]]).
    assert (Hlen' : Z.of_nat (length (reps ++ [nodeAt r (hashAt r idx)])) <= rF)
      by (rewrite length_app; simpl length; lia).
    assert (Hpre : reps `prefix_of` reps ++ [nodeAt r (hashAt r idx)])
      by (eexists; reflexivity).
    destruct (Nat.eqb_spec (size ({[ID (nodeAt r (hashAt r idx))]} ∪
                  (list_to_set (map ID reps) : gset string))) (map_size (hashMap r)))
      as [Heq|Hne].
    + split; [exact Hnd'|]. split; [exact Hown'|]. split; [exact Hlen'|].
      split; [exact Hpre|]. right. rewrite <- Hseen'. exact Heq.
    + cbn [w_idx w_replicas w_seen].
      split; [split; [exact Hnd'|]; split; [exact Hseen'|]; apply Nat.mod_upper_bound, Hn|].
      split; [exact Hown'|]. split; [exact Hlen'|]. split; [exact Hpre|].
      split; [set_solver|]. split; [set_solver|reflexivity].
Qed.

Lemma walk_inv (r : Ring) (rF : Z) (fuel : nat) :
  forall s res, walkInv r s -> Forall (slotOwner r) (w_replicas s) ->
  Z.of_nat (length (w_replicas s)) <= rF ->
  walk fuel r rF s = Some res ->
  NoDup (map ID res) /\ Forall (slotOwner r) res /\ Z.of_nat (length res) <= rF /\
  w_replicas s `prefix_of` res /\
  (rF <= Z.of_nat (length res) \/
   size (list_to_set (map ID res) : gset string) = map_size (hashMap r)).
Proof.
  induction fuel as [|fuel IH]; intros s res Hinv Hown Hlen Hw; [discriminate|].
  cbn [walk] in Hw. pose proof (walkStep_inv r rF s Hinv Hown Hlen) as Hs.
  destruct (walkStep r rF s) as [res0|s1].
  - injection Hw as <-. exact Hs.
  - destruct Hs as (Hinv1 & Hown1 & Hlen1 & Hpre1 & _).
    destruct (IH s1 res Hinv1 Hown1 Hlen1 Hw) as (R1 & R2 & R3 & R4 & R5).
    split; [exact R1|]. split; [exact R2|]. split; [exact R3|].
    split; [etrans; [exact Hpre1|exact R4]|exact R5].
Qed.

(** The first iteration from the start state adds the owner of the
    start slot. *)
Lemma walkStep_first (r : Ring) (rF : Z) (idx : nat) :
  0 < rF ->
  walkStep r rF (mkWalk idx [] ∅) =
  let node := nodeAt r (hashAt r idx) in
  if Nat.eqb (size ({[ID node]} ∪ (∅ : gset string))) (map_size (hashMap r))
  then inl [node]
  else inr (mkWalk (Nat.modulo (S idx) (length (hashes r))) [node] ({[ID node]} ∪ ∅)).
Proof.
  intros Hpos. unfold walkStep. cbn [w_idx w_replicas w_seen length].
  change (Z.of_nat 0) with 0. apply Z.ltb_lt in Hpos. rewrite Hpos.
  rewrite decide_False by set_solver. reflexivity.
Qed.

Lemma walk_first (r : Ring) (rF : Z) (fuel : nat) (idx : nat) (res : list NodeInfo) :
  0 < rF -> (idx < length (hashes r))%nat ->
  walk fuel r rF (mkWalk idx [] ∅) = Some res ->
  [nodeAt r (hashAt r idx)] `prefix_of` res.
Proof.
  intros Hpos Hidx Hw. destruct fuel as [|fuel]; [discriminate|].
  cbn [walk] in Hw. rewrite walkStep_first in Hw by exact Hpos. cbv zeta in Hw.
  destruct (Nat.eqb _ _).
  - injection Hw as <-. reflexivity.
  - eapply walk_inv in Hw as (_ & _ & _ & Hpre & _); [exact Hpre| | |].
    + split; [repeat constructor; set_solver|]. split.
      * cbn [w_seen w_replicas map list_to_set]. reflexivity.
      * cbn [w_idx]. apply Nat.mod_upper_bound. lia.
    + cbn [w_replicas]. constructor; [|constructor]. exists idx. split; auto.
    + cbn [w_replicas length]. lia.
Qed.

Lemma walkN_walk (k fuel : nat) (r : Ring) (rF : Z) (s s' : WalkState) :
  walkN k r rF s = Some s' -> walk (k + fuel) r rF s = walk fuel r rF s'.
Proof.
  revert s; induction k as [|k IH]; intros s Hk; cbn [walkN] in Hk.
  - injection Hk as ->. reflexivity.
  - cbn [Nat.add walk]. destruct (walkStep r rF s) as [res|s1]; [discriminate|].
    exact (IH s1 Hk).
Qed.

Lemma walk_mono (fuel : nat) (r : Ring) (rF : Z) (s : WalkState) (res : list NodeInfo) :
  walk fuel r rF s = Some res -> walk (S fuel) r rF s = Some res.
Proof.
  revert s; induction fuel as [|fuel IH]; intros s Hw; [discriminate|].
  cbn [walk] in *. destruct (walkStep r rF s) as [res0|s1]; [exact Hw|].
  exact (IH s1 Hw).
Qed.

(** After [k] iterations that do not exit, every slot visited so far has
    its owner in [seen]. *)
Lemma walk_progress (r : Ring) (rF : Z) (k : nat) :
  forall s, walkInv r s -> Forall (slotOwner r) (w_replicas s) ->
  Z.of_nat (length (w_replicas s)) <= rF ->
  (exists res, walk k r rF s = Some res) \/
  (exists s', walkN k r rF s = Some s' /\ walkInv r s' /\
     Forall (slotOwner r) (w_replicas s') /\ Z.of_nat (length (w_replicas s')) <= rF /\
     w_seen s ⊆ w_seen s' /\
     w_idx s' = Nat.modulo (w_idx s + k) (length (hashes r)) /\
     forall j, (j < k)%nat ->
       ID (nodeAt r (hashAt r (Nat.modulo (w_idx s + j) (length (hashes r))))) ∈ w_seen s').
Proof.
  induction k as [|k IH]; intros s Hinv Hown Hlen.
  - right. exists s. destruct Hinv as (H1 & H2 & H3).
    split; [reflexivity|]. split; [split; auto|]. split; [exact Hown|]. split; [exact Hlen|].
    split; [reflexivity|].
    split; [rewrite Nat.add_0_r, Nat.mod_small; auto|]. intros j Hj; lia.
  - pose proof (walkStep_inv r rF s Hinv Hown Hlen) as Hs.
    assert (Hidx : (w_idx s < length (hashes r))%nat) by (destruct Hinv as (_ & _ & H); exact H).
    assert (Hn : length (hashes r) <> 0%nat) by lia.
    cbn [walk walkN]. destruct (walkStep r rF s) as [res|s1].
    + left. exists res. reflexivity.
    + destruct Hs as (Hinv1 & Hown1 & Hlen1 & _ & Hsub & Hvis & Hidx1).
      destruct (IH s1 Hinv1 Hown1 Hlen1)
        as [[res Hres]|(s' & Hk & Hinv' & Hown' & Hlen' & Hsub' & Hidx' & Hall)].
      * left. exists res. exact Hres.
      * right. exists s'. split; [exact Hk|]. split; [exact Hinv'|]. split; [exact Hown'|].
        split; [exact Hlen'|]. split; [etrans; [exact Hsub|exact Hsub']|]. split.
        -- rewrite Hidx', Hidx1, Nat.Div0.add_mod_idemp_l. f_equal. lia.
        -- intros j Hj. destruct j as [|j].
           ++ rewrite Nat.add_0_r, (Nat.mod_small (w_idx s)) by exact Hidx.
              apply Hsub', Hvis.
           ++ specialize (Hall j ltac:(lia)). rewrite Hidx1, Nat.Div0.add_mod_idemp_l in Hall.
              replace (w_idx s + S j)%nat with (S (w_idx s) + j)%nat by lia. exact Hall.
Qed.

Lemma size_list_to_set_le (l : list string) : (size (list_to_set l : gset string) <= length l)%nat.
Proof.
  induction l as [|x l IH].
  - rewrite list_to_set_nil, size_empty. simpl. lia.
  - rewrite list_to_set_cons, size_union_alt, size_singleton. simpl length.
    pose proof (subseteq_size (list_to_set l ∖ {[x]} : gset string) (list_to_set l)
                  ltac:(set_solver)). lia.
Qed.

Lemma owners_size_le (r : Ring) : (size (owners r) <= length (hashes r))%nat.
Proof.
  unfold owners. etrans; [apply size_list_to_set_le|]. rewrite length_map, length_seq. lia.
Qed.

Lemma owners_elem (r : Ring) (x : string) :
  x ∈ owners r <-> exists i, (i < length (hashes r))%nat /\ x = ID (nodeAt r (hashAt r i)).
Proof.
  unfold owners. rewrite elem_of_list_to_set, list_elem_of_In, in_map_iff.
  split.
  - intros (i & <- & Hi). apply in_seq in Hi. exists i. split; [lia|reflexivity].
  - intros (i & Hi & ->). exists i. split; [reflexivity|]. apply in_seq. lia.
Qed.

(** A walk that has gone round every slot once has all owners in [seen]:
    it exits at the next guard as soon as there are [rF] owners. *)
Lemma walk_finishes (r : Ring) (rF : Z) (s : WalkState) :
  walkInv r s -> Forall (slotOwner r) (w_replicas s) ->
  Z.of_nat (length (w_replicas s)) <= rF ->
  rF <= Z.of_nat (size (owners r)) ->
  exists res, walk (S (length (hashes r))) r rF s = Some res.
Proof.
  intros Hinv Hown Hlen Hrf.
  assert (Hidx : (w_idx s < length (hashes r))%nat) by (destruct Hinv as (_ & _ & H); exact H).
  set (n := length (hashes r)) in *.
  destruct (walk_progress r rF n s Hinv Hown Hlen)
    as [[res Hres]|(s' & Hk & (Hnd & Hseen & _) & _ & _ & _ & _ & Hall)].
  - exists res. apply walk_mono, Hres.
  - exists (w_replicas s'). replace (S n) with (n + 1)%nat by lia.
    rewrite (walkN_walk _ _ _ _ _ _ Hk). cbn [walk]. unfold walkStep.
    destruct (Z.ltb_spec (Z.of_nat (length (w_replicas s'))) rF) as [Hlt|_]; [exfalso|reflexivity].
    assert (Hsub : owners r ⊆ w_seen s').
    { intros x Hx. apply owners_elem in Hx as (i & Hi & ->).
      specialize (Hall ((i + n - w_idx s) mod n)%nat
                    ltac:(apply Nat.mod_upper_bound; lia)).
      rewrite Nat.Div0.add_mod_idemp_r in Hall.
      replace (w_idx s + (i + n - w_idx s))%nat with (i + 1 * n)%nat in Hall by lia.
      rewrite Nat.Div0.mod_add, Nat.mod_small in Hall by lia. exact Hall. }
    apply subseteq_size in Hsub. rewrite Hseen, size_list_to_set, length_map in Hsub
      by exact Hnd.
    lia.
Qed.

Lemma start_inv (r : Ring) (h : Z) :
  hashes r <> [] -> walkInv r (mkWalk (startIndex r h) [] ∅).
Proof.
  intros Hne. split; [constructor|]. split; [reflexivity|]. apply startIndex_lt, Hne.
Qed.

End WalkInv.

(* ===================================================================== *)
(** ** Lemmas on building and shrinking the ring *)

Module RingBuild.
Import HashRing WalkFacts SortFacts HashFacts.

Lemma fold_addSlot_vNodes (n : NodeInfo) (l : list nat) (r : Ring) :
  vNodes (fold_left (addSlot n) l r) = vNodes r.
Proof.
  revert r; induction l as [|i l IH]; intros r; simpl; [reflexivity|]. rewrite IH. reflexivity.
Qed.

(** The map after the slots [l] of [n]: [n] at every new slot hash (a
    later slot wins), the old owner elsewhere. *)
Lemma fold_addSlot_lookup (n : NodeInfo) (l : list nat) (r : Ring) (h : Z) :
  hashMap (fold_left (addSlot n) l r) !! h =
  if existsb (fun i => Z.eqb (hashFn (vKey n i)) h) l then Some n else hashMap r !! h.
Proof.
  revert r; induction l as [|i l IH]; intros r; simpl; [reflexivity|].
  rewrite IH. cbn [hashMap].
  destruct (existsb (fun i0 => Z.eqb (hashFn (vKey n i0)) h) l);
    [rewrite orb_true_r; reflexivity|rewrite orb_false_r].
  destruct (Z.eqb_spec (hashFn (vKey n i)) h) as [<-|Hne].
  - apply lookup_insert_eq.
  - apply lookup_insert_ne. exact Hne.
Qed.

Lemma addNodeNoLock_hashes (r : Ring) (n : NodeInfo) :
  hashes (addNodeNoLock r n) =
  hashes r ++ map (fun i => hashFn (vKey n i)) (seq 0 (Z.to_nat (vNodes r))).
Proof. apply fold_addSlot_hashes. Qed.

Lemma addNodeNoLock_vNodes (r : Ring) (n : NodeInfo) : vNodes (addNodeNoLock r n) = vNodes r.
Proof. apply fold_addSlot_vNodes. Qed.

Lemma addNodeNoLock_lookup (r : Ring) (n : NodeInfo) (h : Z) :
  hashMap (addNodeNoLock r n) !! h =
  if existsb (fun i => Z.eqb (hashFn (vKey n i)) h) (seq 0 (Z.to_nat (vNodes r)))
  then Some n else hashMap r !! h.
Proof. apply fold_addSlot_lookup. Qed.

(** The invariant of the construction loop of [NewRing]: every slot hash
    has an entry, and every entry is one of the nodes added. *)
Lemma fold_addNode_inv (nodes : list NodeInfo) :
  forall (r : Ring) (P : NodeInfo -> Prop),
  (forall h, In h (hashes r) -> is_Some (hashMap r !! h)) ->
  (forall h m, hashMap r !! h = Some m -> P m) ->
  Forall P nodes ->
  let r' := fold_left addNodeNoLock nodes r in
  (forall h, In h (hashes r') -> is_Some (hashMap r' !! h)) /\
  (forall h m, hashMap r' !! h = Some m -> P m) /\
  vNodes r' = vNodes r /\
  length (hashes r') = (length (hashes r) + length nodes * Z.to_nat (vNodes r))%nat.
Proof.
  induction nodes as [|n nodes IH]; intros r P Hdom Hown HP; simpl.
  - split; [exact Hdom|]. split; [exact Hown|]. split; [reflexivity|lia].
  - inversion HP as [|? ? Hn HP']; subst.
    destruct (IH (addNodeNoLock r n) P) as (I1 & I2 & I3 & I4).
    + intros h Hh. rewrite addNodeNoLock_lookup.
      rewrite addNodeNoLock_hashes in Hh. apply in_app_or in Hh as [Hh|Hh].
      * destruct (existsb _ _); [eexists; reflexivity|apply Hdom, Hh].
      * apply in_map_iff in Hh as (i & <- & Hi).
        replace (existsb _ _) with true; [eexists; reflexivity|].
        symmetry. apply existsb_exists. exists i. split; [exact Hi|apply Z.eqb_refl].
    + intros h m Hm. rewrite addNodeNoLock_lookup in Hm.
      destruct (existsb _ _); [injection Hm as <-; exact Hn|exact (Hown h m Hm)].
    + exact HP'.
    + split; [exact I1|]. split; [exact I2|].
      rewrite addNodeNoLock_vNodes in I3, I4. split; [exact I3|].
      rewrite I4, addNodeNoLock_hashes, length_app, length_map, length_seq. lia.
Qed.

(** [sort.Search] over the sorted ring: [startIndex] is the first slot at
    or after [h], or slot 0 when every slot hash is below [h]. *)
Lemma startIndex_spec (r : Ring) (h : Z) :
  Sorted Z.le (hashes r) -> hashes r <> [] ->
  let i := startIndex r h in
  (i < length (hashes r))%nat /\
  ((exists j, (j < length (hashes r))%nat /\ h <= hashAt r j) ->
     h <= hashAt r i /\ forall k, (k < i)%nat -> hashAt r k < h) /\
  ((forall j, (j < length (hashes r))%nat -> hashAt r j < h) -> i = 0%nat).
Proof.
  intros Hs Hne. cbv zeta.
  pose proof (startIndex_lt r h Hne) as Hlt.
  set (n := length (hashes r)) in *.
  set (f := fun i => Z.leb h (hashAt r i)).
  assert (Hmono : forall a b, (a <= b)%nat -> (b < n)%nat -> f a = true -> f b = true).
  { intros a b Hab Hb. unfold f. rewrite !Z.leb_le. intros Ha.
    etrans; [exact Ha|]. apply sorted_nth_le; auto. }
  destruct (search_loop_spec n f Hmono n 0 n ltac:(lia) ltac:(lia) ltac:(lia)
              ltac:(intros; lia) ltac:(intros; lia)) as (S1 & S2 & S3).
  unfold startIndex, sortSearch in *. fold n in Hlt |- *. fold f in Hlt |- *.
  set (x := search_loop n f 0 n) in *.
  split; [exact Hlt|]. split.
  - intros (j & Hj & Hhj).
    destruct (Nat.eqb_spec x n) as [Hx|Hx].
    + exfalso. specialize (S2 j ltac:(lia)). unfold f in S2.
      apply Z.leb_gt in S2. lia.
    + specialize (S3 ltac:(lia)). unfold f in S3. apply Z.leb_le in S3.
      split; [exact S3|]. intros k Hk. specialize (S2 k Hk). unfold f in S2.
      apply Z.leb_gt in S2. exact S2.
  - intros Hall. destruct (Nat.eqb_spec x n) as [Hx|Hx]; [reflexivity|].
    exfalso. specialize (S3 ltac:(lia)). unfold f in S3. apply Z.leb_le in S3.
    specialize (Hall x ltac:(lia)). lia.
Qed.

(** The hashes kept by the [RemoveNode] pass are hashes of the ring. *)
Lemma fold_removeStep_sub (id : string) (l : list Z) :
  forall hm acc h, In h (snd (fold_left (removeStep id) l (hm, acc))) -> In h acc \/ In h l.
Proof.
  induction l as [|h0 l IH]; intros hm acc h Hh; simpl in Hh; [left; exact Hh|].
  destruct (String.eqb _ _).
  - destruct (IH _ _ _ Hh) as [H|H]; [left; exact H|right; right; exact H].
  - destruct (IH _ _ _ Hh) as [H|H]; [|right; right; exact H].
    apply in_app_or in H as [H|[<-|[]]]; [left; exact H|right; left; reflexivity].
Qed.

(** A pass that finds no slot of [id] keeps the map and every hash. *)
Lemma fold_removeStep_none (id : string) (l : list Z) :
  forall hm acc, (forall h, In h l -> ID (default zeroNode (hm !! h)) <> id) ->
  fold_left (removeStep id) l (hm, acc) = (hm, acc ++ l).
Proof.
  induction l as [|h l IH]; intros hm acc Hl; simpl.
  - rewrite app_nil_r. reflexivity.
  - destruct (String.eqb_spec (ID (default zeroNode (hm !! h))) id) as [E|_].
    + exfalso. exact (Hl h (or_introl eq_refl) E).
    + rewrite IH by (intros h' Hh'; apply Hl; right; exact Hh'). rewrite <- app_assoc. reflexivity.
Qed.

End RingBuild.

(* ===================================================================== *)
(** ** Lemmas on [Router.Delete], on the rebalance counters and on [Keys] *)

Module RouterMore.
Import HashRing Cluster Views RouterFacts RebalanceFacts.

(** The errors that one replica adds to [errs] in [Router.Delete]. *)
Definition replicaDeleteErrors (r : Router) (tr : Transport) (key : string)
    (node : NodeInfo) : list ReplicaError :=
  if isLocal r node then []
  else match remoteDelete tr (Host node) key with
       | PostErr e => [RemoteFailed (Host node) e]
       | PostResp code => if Z.leb 300 code then [RemoteStatus (Host node) code] else []
       end.

Definition deleteErrors (r : Router) (tr : Transport) (key : string)
    (replicas : list NodeInfo) : list ReplicaError :=
  concat (map (replicaDeleteErrors r tr key) replicas).

Lemma fold_deleteStep (r : Router) (tr : Transport) (key : string) (l : list NodeInfo) :
  forall (st0 : KV.Store) (calls : list string) (errs : list ReplicaError),
  fold_left (deleteStep r tr key) l (st0, calls, errs) =
  (if existsb (isLocal r) l then KV.Delete st0 key else st0,
   calls ++ remoteHosts r l,
   errs ++ deleteErrors r tr key l).
Proof.
  unfold remoteHosts, deleteErrors.
  induction l as [|n l IH]; intros st0 calls errs; simpl.
  - rewrite !app_nil_r. reflexivity.
  - unfold replicaDeleteErrors. destruct (isLocal r n) eqn:Hn; simpl.
    + rewrite IH. destruct (existsb (isLocal r) l); simpl.
      * unfold KV.Delete. rewrite delete_delete_eq. reflexivity.
      * reflexivity.
    + destruct (remoteDelete tr (Host n) key) as [e|code].
      * rewrite IH. rewrite <- !app_assoc. reflexivity.
      * destruct (Z.leb 300 code); rewrite IH; rewrite <- !app_assoc; reflexivity.
Qed.

Lemma Delete_closed (r : Router) (tr : Transport) (st : KV.Store)
    (replicas : list NodeInfo) (key : string) :
  Delete r tr st replicas key =
  match replicas with
  | [] => (st, [], Some NoReplicas)
  | _ => (if existsb (isLocal r) replicas then KV.Delete st key else st,
          remoteHosts r replicas,
          match deleteErrors r tr key replicas with
          | [] => None
          | es => Some (ReplicationErrors es)
          end)
  end.
Proof.
  unfold Delete. destruct replicas as [|n l]; [reflexivity|].
  rewrite fold_deleteStep. simpl app.
  destruct (deleteErrors r tr key (n :: l)); reflexivity.
Qed.

Section WithScan.
Variables (r : Router) (tr : Transport) (replicasOf : string -> list NodeInfo)
  (ctxDone : nat -> bool).

(** A key present in the store adds one to exactly one of [moved], [kept]
    and the failures. *)
Lemma rebalanceKey_count (s : RebState) (key : string) :
  is_Some (rb_store s !! key) ->
  let s' := rebalanceKey r tr replicasOf s key in
  (rb_moved s' + rb_kept s' + length (rb_failed s') =
   S (rb_moved s + rb_kept s + length (rb_failed s)))%nat.
Proof.
  intros [v Hv]. cbv zeta. unfold rebalanceKey, KV.Get. rewrite Hv.
  destruct (replicasOf key) as [|n0 l]; cbn [rb_moved rb_kept rb_failed]; [lia|].
  destruct (existsb (isLocal r) (n0 :: l)) eqn:Hex; cbn [rb_moved rb_kept rb_failed]; [lia|].
  rewrite Put_closed.
  destruct (perReplicaErrors r tr key v (n0 :: l)); cbn [rb_moved rb_kept rb_failed];
    [lia|rewrite length_app; simpl length; lia].
Qed.

Lemma rebalanceLoop_count (keys : list string) :
  forall i s s', List.NoDup keys ->
  (forall k, In k keys -> is_Some (rb_store s !! k)) ->
  rebalanceLoop r tr replicasOf ctxDone i keys s = (s', RebDone) ->
  (rb_moved s' + rb_kept s' + length (rb_failed s') =
   rb_moved s + rb_kept s + length (rb_failed s) + length keys)%nat.
Proof.
  induction keys as [|key rest IH]; intros i s s' Hnd Hpres Hrun; simpl in Hrun.
  - injection Hrun as <-. simpl. lia.
  - destruct (ctxDone i); [discriminate|].
    apply NoDup_cons_iff in Hnd as [Hnot Hnd].
    destruct (rebalanceKey_cases r tr replicasOf s key) as (Hoth & _ & _).
    pose proof (rebalanceKey_count s key (Hpres key (or_introl eq_refl))) as Hc.
    cbv zeta in Hc.
    rewrite (IH (S i) (rebalanceKey r tr replicasOf s key) s' Hnd); [simpl length; lia| |exact Hrun].
    intros k Hk. rewrite Hoth by (intros ->; contradiction). apply Hpres. right; exact Hk.
Qed.

(** Keys that are absent, local, or without replicas leave the store and
    the counters other than [kept] as they are. *)
Lemma rebalanceLoop_noop (keys : list string) :
  forall i s,
  (forall k, In k keys -> rb_store s !! k = None \/
     existsb (isLocal r) (replicasOf k) = true \/ replicasOf k = []) ->
  let s' := fst (rebalanceLoop r tr replicasOf ctxDone i keys s) in
  rb_store s' = rb_store s /\ rb_moved s' = rb_moved s /\ rb_failed s' = rb_failed s.
Proof.
  induction keys as [|key rest IH]; intros i s Hk; simpl; [auto|].
  destruct (ctxDone i); simpl; [auto|].
  assert (Hstep : let s1 := rebalanceKey r tr replicasOf s key in
                  rb_store s1 = rb_store s /\ rb_moved s1 = rb_moved s /\
                  rb_failed s1 = rb_failed s).
  { cbv zeta. unfold rebalanceKey, KV.Get.
    destruct (Hk key (or_introl eq_refl)) as [Hn|[Hl|He]].
    - rewrite Hn. auto.
    - destruct (rb_store s !! key); [|auto].
      destruct (replicasOf key) as [|n0 l]; [simpl; auto|]. rewrite Hl. simpl; auto.
    - destruct (rb_store s !! key); [|auto]. rewrite He. simpl; auto. }
  cbv zeta in Hstep. destruct Hstep as (E1 & E2 & E3).
  destruct (IH (S i) (rebalanceKey r tr replicasOf s key)) as (F1 & F2 & F3).
  - intros k Hin. rewrite E1. apply Hk. right; exact Hin.
  - split; [congruence|]. split; congruence.
Qed.

End WithScan.

Lemma Keys_elem (s : KV.Store) (k : string) : In k (KV.Keys s) <-> is_Some (s !! k).
Proof.
  unfold KV.Keys. rewrite in_map_iff. split.
  - intros ([k' v] & <- & Hin). apply list_elem_of_In, elem_of_map_to_list in Hin.
    exists v. exact Hin.
  - intros [v Hv]. exists (k, v). split; [reflexivity|].
    apply list_elem_of_In, elem_of_map_to_list, Hv.
Qed.

Lemma Keys_NoDup (s : KV.Store) : List.NoDup (KV.Keys s).
Proof.
  apply NoDup_ListNoDup. unfold KV.Keys. exact (NoDup_fst_map_to_list s).
Qed.

(** Any duplicate-free list of exactly the store's keys is an
    arrangement of [Keys()]. *)
Lemma snapshot_perm (s : KV.Store) (keys : list string) :
  List.NoDup keys -> (forall k, In k keys <-> is_Some (s !! k)) ->
  Permutation keys (KV.Keys s).
Proof.
  intros Hnd Hsnap.
  apply Stdlib.Sorting.Permutation.NoDup_Permutation; [exact Hnd|apply Keys_NoDup|].
  intros k. rewrite Hsnap, Keys_elem. reflexivity.
Qed.

End RouterMore.

(* ===================================================================== *)
(** ** Lemmas on the ring operations as the router uses them *)

Module RingOps.
Import HashRing WalkFacts WalkInv SortFacts HashFacts RingBuild.

Lemma NewRing_facts (nodes : list NodeInfo) (v : Z) :
  let r := NewRing nodes v in
  Sorted Z.le (hashes r) /\
  length (hashes r) = (length nodes * Z.to_nat v)%nat /\
  (forall h, In h (hashes r) -> is_Some (hashMap r !! h)) /\
  (forall h m, hashMap r !! h = Some m -> In m nodes) /\
  vNodes r = v.
Proof.
  cbv zeta. unfold NewRing, sortHashes. cbn [hashes hashMap vNodes].
  destruct (fold_addNode_inv nodes (mkRing v [] ∅) (fun m => In m nodes))
    as (I1 & I2 & I3 & I4).
  - intros h Hh. cbn [hashes] in Hh. contradiction.
  - intros h m Hm. cbn [hashMap] in Hm. rewrite lookup_empty in Hm. discriminate.
  - apply Forall_forall. intros x Hx. apply list_elem_of_In, Hx.
  - cbn [hashes vNodes length] in I3, I4.
    split; [apply sort_Z_sorted|]. split.
    + rewrite (Permutation_length (sort_Z_perm _)). exact I4.
    + split; [intros h Hh; apply I1, (Permutation_in _ (sort_Z_perm _)), Hh|].
      split; [exact I2|exact I3].
Qed.

Lemma RemoveNode_facts (r : Ring) (id : string) :
  let r' := RemoveNode r id in
  Sorted Z.le (hashes r') /\
  (forall h, In h (hashes r') -> In h (hashes r) /\ ID (nodeAt r' h) <> id) /\
  (forall h n, In h (hashes r) -> hashMap r !! h = Some n -> ID n <> id ->
     In h (hashes r') /\ hashMap r' !! h = Some n) /\
  vNodes r' = vNodes r.
Proof.
  cbv zeta. unfold RemoveNode.
  pose proof (fold_removeStep_spec id (hashes r) (hashMap r) [] ltac:(intros h [])) as Hs.
  pose proof (fold_removeStep_sub id (hashes r) (hashMap r) []) as Hsub.
  destruct (fold_left (removeStep id) (hashes r) (hashMap r, [])) as [hm nh].
  cbv zeta in Hs. cbn [fst snd] in Hs, Hsub. destruct Hs as (I1 & I2 & _ & I4).
  unfold sortHashes, nodeAt. cbn [hashes hashMap vNodes].
  split; [apply sort_Z_sorted|]. split; [|split; [|reflexivity]].
  - intros h Hh. apply (Permutation_in _ (sort_Z_perm _)) in Hh.
    split; [destruct (Hsub h Hh) as [[]|H]; exact H|exact (I1 h Hh)].
  - intros h n Hh Hn Hid. split.
    + apply (Permutation_in _ (Permutation_sym (sort_Z_perm _))). exact (I4 h n Hh Hn Hid).
    + exact (I2 h n Hn Hid).
Qed.

Lemma hashAt_In (r : Ring) (i : nat) : (i < length (hashes r))%nat -> In (hashAt r i) (hashes r).
Proof. intros Hi. apply nth_In, Hi. Qed.

(** The walk from the start state, once the guards have passed. *)
Lemma replicas_walk (fuel : nat) (r : Ring) (key : string) (rFactor : Z) (l : list NodeInfo) :
  hashes r <> [] -> 1 <= rFactor ->
  GetReplicasForKey fuel r key rFactor = Some l ->
  walk fuel r (effFactor r rFactor) (startState r key) = Some l.
Proof.
  intros Hne Hr H. unfold GetReplicasForKey in H.
  destruct (Nat.eqb_spec (length (hashes r)) 0) as [H0|_];
    [destruct (hashes r); [congruence|discriminate]|].
  destruct (Z.leb_spec rFactor 0); [lia|]. exact H.
Qed.

Lemma effFactor_bounds (r : Ring) (rFactor : Z) :
  hashes r <> [] -> 1 <= rFactor ->
  1 <= effFactor r rFactor <= rFactor /\
  (rFactor <= Z.of_nat (length (hashes r)) -> effFactor r rFactor = rFactor).
Proof.
  intros Hne Hr. unfold effFactor.
  assert (length (hashes r) <> 0%nat) by (destruct (hashes r); [congruence|discriminate]).
  destruct (Z.ltb_spec (Z.of_nat (length (hashes r))) rFactor); split; lia.
Qed.

(** Every replica returned is the owner of some slot. *)
Lemma replicas_owner (fuel : nat) (r : Ring) (key : string) (rFactor : Z) (l : list NodeInfo) :
  GetReplicasForKey fuel r key rFactor = Some l -> Forall (slotOwner r) l.
Proof.
  intros H. destruct (hashes r) eqn:Hh.
  - unfold GetReplicasForKey in H. rewrite Hh in H. injection H as <-. constructor.
  - destruct (Z.le_gt_cases rFactor 0) as [Hr|Hr].
    + unfold GetReplicasForKey in H. destruct (Z.leb_spec rFactor 0); [|lia].
      rewrite orb_true_r in H. injection H as <-. constructor.
    + assert (Hne : hashes r <> []) by congruence.
      apply replicas_walk in H; [|exact Hne|lia].
      destruct (effFactor_bounds r rFactor Hne ltac:(lia)) as [Hb _].
      eapply walk_inv in H as (_ & H & _); [exact H|apply start_inv, Hne|constructor|].
      cbn. lia.
Qed.

Lemma owners_le_map_size (r : Ring) :
  (forall h, In h (hashes r) -> is_Some (hashMap r !! h)) ->
  (size (owners r) <= map_size (hashMap r))%nat.
Proof.
  intros Hdom.
  transitivity (size (list_to_set (map (fun p => ID (snd p)) (map_to_list (hashMap r)))
                   : gset string)).
  - apply subseteq_size. intros x Hx. apply owners_elem in Hx as (i & Hi & ->).
    destruct (Hdom _ (hashAt_In r i Hi)) as [m Hm].
    apply elem_of_list_to_set, list_elem_of_In, in_map_iff.
    exists (hashAt r i, m). unfold nodeAt. rewrite Hm. split; [reflexivity|].
    apply list_elem_of_In, elem_of_map_to_list, Hm.
  - etrans; [apply size_list_to_set_le|]. rewrite length_map, length_map_to_list. reflexivity.
Qed.

(** [getNode] reads the owner of the start slot of the walk. *)
Lemma GetNodeForKey_start (r : Ring) (key : string) :
  hashes r <> [] ->
  fst (GetNodeForKey r key) = nodeAt r (hashAt r (startIndex r (hashFn key))) /\
  snd (GetNodeForKey r key) = bool_decide (is_Some (hashMap r !! hashAt r (startIndex r (hashFn key)))).
Proof.
  intros Hne. unfold GetNodeForKey, getNode, nodeAt.
  destruct (Nat.eqb_spec (length (hashes r)) 0) as [H0|_];
    [destruct (hashes r); [congruence|discriminate]|].
  destruct (hashMap r !! _) as [n|]; split; reflexivity.
Qed.

(** Past its guards, [GetReplicasForKey] is the walk from the start slot. *)
Lemma GetReplicasForKey_walk (fuel : nat) (r : Ring) (key : string) (rFactor : Z) :
  hashes r <> [] -> 1 <= rFactor ->
  GetReplicasForKey fuel r key rFactor = walk fuel r (effFactor r rFactor) (startState r key).
Proof.
  intros Hne Hr. unfold GetReplicasForKey.
  destruct (Nat.eqb_spec (length (hashes r)) 0) as [H0|_];
    [destruct (hashes r); [congruence|discriminate]|].
  destruct (Z.leb_spec rFactor 0); [lia|]. reflexivity.
Qed.

(** The first replica is the owner of the start slot. *)
Lemma replicas_head (fuel : nat) (r : Ring) (key : string) (rFactor : Z) (l : list NodeInfo) :
  hashes r <> [] -> 1 <= rFactor ->
  GetReplicasForKey fuel r key rFactor = Some l ->
  exists rest, l = nodeAt r (hashAt r (startIndex r (hashFn key))) :: rest.
Proof.
  intros Hne Hr H. rewrite GetReplicasForKey_walk in H by assumption.
  destruct (effFactor_bounds r rFactor Hne Hr) as [Hb _].
  apply walk_first in H as [rest ->]; [exists rest; reflexivity|lia|].
  apply startIndex_lt, Hne.
Qed.

End RingOps.

Module MainFacts.
Import HashRing Main.

Lemma bootstrapNodes_ne (nodeID listenAddr clusterEnv : string) :
  bootstrapNodes nodeID listenAddr clusterEnv <> [].
Proof. unfold bootstrapNodes. destruct (parseClusterNodes clusterEnv); discriminate. Qed.

(** With no node of id [nodeID], [findSelfHost] falls through to the
    listen-address fallback. *)
Lemma findSelfHost_absent (nodes : list NodeInfo) (nodeID listenAddr : string) :
  Forall (fun m => ID m <> nodeID) nodes ->
  findSelfHost nodes nodeID listenAddr = findSelfHost [] nodeID listenAddr.
Proof.
  induction nodes as [|m nodes IH]; intros Hall; [reflexivity|].
  inversion Hall as [|? ? Hm Hall']; subst. cbn [findSelfHost].
  destruct (String.eqb_spec (ID m) nodeID) as [E|_]; [contradiction|].
  exact (IH Hall').
Qed.

End MainFacts.

(* ===================================================================== *)
(** ** Further properties of the code *)

Module Extras.
Import HashRing Configs KV Cluster API Main Views Scenarios
  WalkFacts WalkInv SortFacts HashFacts RouterFacts RebalanceFacts
  RingBuild RingOps MainFacts RouterMore.

(** [NewRing] builds a sorted ring of [len(nodes) * vNodes] slots, every
    slot hash has an entry in [hashMap], and every entry is one of the
    given nodes. *)
Theorem X_NewRing_wellformed (nodes : list NodeInfo) (v : Z) :
  let r := NewRing nodes v in
  Sorted Z.le (hashes r) /\
  length (hashes r) = (length nodes * Z.to_nat v)%nat /\
  (forall h, In h (hashes r) -> is_Some (hashMap r !! h)) /\
  (forall h m, hashMap r !! h = Some m -> In m nodes) /\
  vNodes r = v.
Proof. exact (NewRing_facts nodes v). Qed.

(** [AddNode] appends the [vNodes] slot hashes of the node and sorts: the
    new hash list is a sorted arrangement of the old one and the new
    hashes; each new hash is owned by the node (overwriting a colliding
    owner), and every other entry of [hashMap] is unchanged. *)
Theorem X_AddNode_slots (r : Ring) (n : NodeInfo) :
  let r' := AddNode r n in
  let added := map (fun i => hashFn (vKey n i)) (seq 0 (Z.to_nat (vNodes r))) in
  Sorted Z.le (hashes r') /\
  Permutation (hashes r') (hashes r ++ added) /\
  (forall h, In h added -> hashMap r' !! h = Some n) /\
  (forall h, ~ In h added -> hashMap r' !! h = hashMap r !! h) /\
  vNodes r' = vNodes r.
Proof.
  cbv zeta. unfold AddNode, sortHashes. cbn [hashes hashMap vNodes].
  split; [apply sort_Z_sorted|]. split.
  { etrans; [apply sort_Z_perm|]. rewrite addNodeNoLock_hashes. reflexivity. }
  split; [|split; [|apply addNodeNoLock_vNodes]].
  - intros h Hh. rewrite addNodeNoLock_lookup.
    apply in_map_iff in Hh as (i & <- & Hi).
    replace (existsb _ _) with true; [reflexivity|].
    symmetry. apply existsb_exists. exists i. split; [exact Hi|apply Z.eqb_refl].
  - intros h Hh. rewrite addNodeNoLock_lookup.
    destruct (existsb _ _) eqn:E; [|reflexivity].
    exfalso. apply existsb_exists in E as (i & Hi & Heq). apply Z.eqb_eq in Heq.
    apply Hh, in_map_iff. exists i. split; [exact Heq|exact Hi].
Qed.

(** On a sorted, non-empty ring, [GetNodeForKey] returns the owner of the
    first slot whose hash is at or above the key's hash, and of slot 0
    when every slot hash is below it (the wrap-around). *)
Theorem X_GetNodeForKey_first_slot (r : Ring) (key : string) :
  Sorted Z.le (hashes r) -> hashes r <> [] ->
  exists i, (i < length (hashes r))%nat /\
    fst (GetNodeForKey r key) = nodeAt r (hashAt r i) /\
    ((exists j, (j < length (hashes r))%nat /\ hashFn key <= hashAt r j) ->
       hashFn key <= hashAt r i /\ forall k, (k < i)%nat -> hashAt r k < hashFn key) /\
    ((forall j, (j < length (hashes r))%nat -> hashAt r j < hashFn key) -> i = 0%nat).
Proof.
  intros Hs Hne. exists (startIndex r (hashFn key)).
  destruct (startIndex_spec r (hashFn key) Hs Hne) as (A & B & C).
  split; [exact A|]. split; [exact (proj1 (GetNodeForKey_start r key Hne))|].
  split; [exact B|exact C].
Qed.

Lemma X_GetNodeForKey_first_slot_witness :
  Sorted Z.le (hashes ring1) /\ hashes ring1 <> [] /\
  exists i, (i < length (hashes ring1))%nat /\
    fst (GetNodeForKey ring1 "alpha") = nodeAt ring1 (hashAt ring1 i) /\
    ((exists j, (j < length (hashes ring1))%nat /\ hashFn "alpha" <= hashAt ring1 j) ->
       hashFn "alpha" <= hashAt ring1 i /\
       forall k, (k < i)%nat -> hashAt ring1 k < hashFn "alpha") /\
    ((forall j, (j < length (hashes ring1))%nat -> hashAt ring1 j < hashFn "alpha") ->
       i = 0%nat).
Proof.
  assert (Hs : Sorted Z.le (hashes ring1)).
  { let l := eval vm_compute in (hashes ring1) in change (hashes ring1) with l.
    repeat constructor. all: apply Z.leb_le; reflexivity. }
  assert (Hne : hashes ring1 <> []) by (vm_compute; discriminate).
  split; [exact Hs|]. split; [exact Hne|].
  exact (X_GetNodeForKey_first_slot ring1 "alpha" Hs Hne).
Defined.

(** [RemoveNode] keeps the ring sorted, keeps only hashes it had, never
    keeps a slot that resolves to the removed id, and keeps every slot
    owned by another node with the same owner. *)
Theorem X_RemoveNode_slots (r : Ring) (id : string) :
  let r' := RemoveNode r id in
  Sorted Z.le (hashes r') /\
  (forall h, In h (hashes r') -> In h (hashes r) /\ ID (nodeAt r' h) <> id) /\
  (forall h n, In h (hashes r) -> hashMap r !! h = Some n -> ID n <> id ->
     In h (hashes r') /\ hashMap r' !! h = Some n) /\
  vNodes r' = vNodes r.
Proof. exact (RemoveNode_facts r id). Qed.

(** After [RemoveNode(id)], with [id] not empty, [GetNodeForKey] never
    returns a node with that id (on an emptied ring it returns the zero
    node). *)
Theorem X_RemoveNode_GetNodeForKey (r : Ring) (id key : string) :
  id <> EmptyString -> ID (fst (GetNodeForKey (RemoveNode r id) key)) <> id.
Proof.
  intros Hid. destruct (hashes (RemoveNode r id)) eqn:E.
  - unfold GetNodeForKey, getNode. rewrite E. cbn. intros H. apply Hid. symmetry. exact H.
  - assert (Hne : hashes (RemoveNode r id) <> []) by congruence.
    destruct (RemoveNode_facts r id) as (_ & Hkept & _ & _).
    rewrite (proj1 (GetNodeForKey_start _ key Hne)).
    apply Hkept, hashAt_In, startIndex_lt, Hne.
Qed.

Lemma X_RemoveNode_GetNodeForKey_witness :
  "node2" <> EmptyString /\
  ID (fst (GetNodeForKey (RemoveNode ring3 "node2") "alpha")) <> "node2".
Proof.
  split; [discriminate|]. apply X_RemoveNode_GetNodeForKey. discriminate.
Defined.

(** After [RemoveNode(id)], no replica list contains a node with that id. *)
Theorem X_RemoveNode_replicas (fuel : nat) (r : Ring) (id key : string) (rFactor : Z)
    (l : list NodeInfo) :
  GetReplicasForKey fuel (RemoveNode r id) key rFactor = Some l ->
  Forall (fun n => ID n <> id) l.
Proof.
  intros H. apply replicas_owner in H.
  destruct (RemoveNode_facts r id) as (_ & Hkept & _ & _).
  eapply Forall_impl; [exact H|]. intros n (i & Hi & <-).
  apply Hkept, hashAt_In, Hi.
Qed.

Lemma X_RemoveNode_replicas_witness :
  GetReplicasForKey 2 (RemoveNode ring3 "node2") "alpha" 1 = Some [node1] /\
  Forall (fun n => ID n <> "node2") [node1].
Proof.
  assert (H : GetReplicasForKey 2 (RemoveNode ring3 "node2") "alpha" 1 = Some [node1])
    by (vm_compute; reflexivity).
  split; [exact H|]. exact (X_RemoveNode_replicas 2 ring3 "node2" "alpha" 1 [node1] H).
Defined.

(** A replica list returned on a non-empty ring with [rFactor >= 1] has
    pairwise distinct ids, holds owners of slots only, has at most
    [rFactor] entries, and starts with the node [GetNodeForKey] returns. *)
Theorem X_GetReplicasForKey_shape (fuel : nat) (r : Ring) (key : string) (rFactor : Z)
    (l : list NodeInfo) :
  hashes r <> [] -> 1 <= rFactor ->
  GetReplicasForKey fuel r key rFactor = Some l ->
  NoDup (map ID l) /\ Forall (slotOwner r) l /\ Z.of_nat (length l) <= rFactor /\
  hd_error l = Some (fst (GetNodeForKey r key)).
Proof.
  intros Hne Hr H.
  destruct (effFactor_bounds r rFactor Hne Hr) as [Hb _].
  destruct (replicas_head fuel r key rFactor l Hne Hr H) as [rest Hl].
  rewrite GetReplicasForKey_walk in H by assumption.
  eapply walk_inv in H as (N & F & L & _ & _); [|apply start_inv, Hne|constructor|cbn; lia].
  split; [exact N|]. split; [exact F|]. split; [lia|].
  rewrite Hl. cbn. rewrite (proj1 (GetNodeForKey_start r key Hne)). reflexivity.
Qed.

Lemma X_GetReplicasForKey_shape_witness :
  hashes ring3 <> [] /\ 1 <= 3 /\
  GetReplicasForKey 301 ring3 "alpha" 3 = Some [node1; node2; node3] /\
  NoDup (map ID [node1; node2; node3]) /\ Forall (slotOwner ring3) [node1; node2; node3] /\
  Z.of_nat (length [node1; node2; node3]) <= 3 /\
  hd_error [node1; node2; node3] = Some (fst (GetNodeForKey ring3 "alpha")).
Proof.
  assert (Hne : hashes ring3 <> []) by (vm_compute; discriminate).
  assert (H : GetReplicasForKey 301 ring3 "alpha" 3 = Some [node1; node2; node3])
    by (vm_compute; reflexivity).
  split; [exact Hne|]. split; [lia|]. split; [exact H|].
  exact (X_GetReplicasForKey_shape 301 ring3 "alpha" 3 _ Hne ltac:(lia) H).
Defined.

(** When [rFactor] is at least 1 and at most the number of distinct slot
    owners, the walk exits within [len(hashes) + 1] iterations. *)
Theorem X_GetReplicasForKey_terminates (r : Ring) (key : string) (rFactor : Z) :
  1 <= rFactor <= Z.of_nat (size (owners r)) ->
  exists l, GetReplicasForKey (S (length (hashes r))) r key rFactor = Some l.
Proof.
  intros Hr. pose proof (owners_size_le r) as Ho.
  assert (Hne : hashes r <> []) by (intros E; rewrite E in Ho; simpl in Ho; lia).
  rewrite GetReplicasForKey_walk by (auto; lia).
  destruct (effFactor_bounds r rFactor Hne ltac:(lia)) as [_ Heq].
  rewrite Heq by lia.
  apply walk_finishes; [apply start_inv, Hne|constructor|cbn; lia|lia].
Qed.

Lemma X_GetReplicasForKey_terminates_witness :
  1 <= 3 <= Z.of_nat (size (owners ring3)) /\
  exists l, GetReplicasForKey (S (length (hashes ring3))) ring3 "alpha" 3 = Some l.
Proof.
  assert (H : 1 <= 3 <= Z.of_nat (size (owners ring3))) by (vm_compute; split; discriminate).
  split; [exact H|]. exact (X_GetReplicasForKey_terminates ring3 "alpha" 3 H).
Defined.

(** On a ring whose every slot hash has an entry in [hashMap] (as
    [NewRing] builds it), a factor between 1 and the number of distinct
    owners yields a replica list of exactly [rFactor] nodes. *)
Theorem X_GetReplicasForKey_count (fuel : nat) (r : Ring) (key : string) (rFactor : Z)
    (l : list NodeInfo) :
  (forall h, In h (hashes r) -> is_Some (hashMap r !! h)) ->
  1 <= rFactor <= Z.of_nat (size (owners r)) ->
  GetReplicasForKey fuel r key rFactor = Some l ->
  Z.of_nat (length l) = rFactor.
Proof.
  intros Hdom Hr H. pose proof (owners_size_le r) as Ho.
  pose proof (owners_le_map_size r Hdom) as Hm.
  assert (Hne : hashes r <> []) by (intros E; rewrite E in Ho; simpl in Ho; lia).
  rewrite GetReplicasForKey_walk in H by (auto; lia).
  destruct (effFactor_bounds r rFactor Hne ltac:(lia)) as [_ Heq].
  rewrite Heq in H by lia.
  eapply walk_inv in H as (N & _ & L & _ & E); [|apply start_inv, Hne|constructor|cbn; lia].
  destruct E as [E|E]; [lia|].
  rewrite size_list_to_set, length_map in E by exact N. lia.
Qed.

Lemma X_GetReplicasForKey_count_witness :
  (forall h, In h (hashes ring3) -> is_Some (hashMap ring3 !! h)) /\
  1 <= 2 <= Z.of_nat (size (owners ring3)) /\
  GetReplicasForKey 301 ring3 "alpha" 2 = Some [node1; node2] /\
  Z.of_nat (length [node1; node2]) = 2.
Proof.
  assert (Hdom : forall h, In h (hashes ring3) -> is_Some (hashMap ring3 !! h))
.
  { assert (Hc : forallb (fun h => match hashMap ring3 !! h with Some _ => true | None => false end)
                   (hashes ring3) = true) by (vm_compute; reflexivity).
    intros h Hh. rewrite forallb_forall in Hc. specialize (Hc h Hh). revert Hc.
    generalize (hashMap ring3 !! h). intros [m|] Hc; [eexists; reflexivity|discriminate]. }
  assert (Hr : 1 <= 2 <= Z.of_nat (size (owners ring3))) by (vm_compute; split; discriminate).
  assert (H : GetReplicasForKey 301 ring3 "alpha" 2 = Some [node1; node2])
    by (vm_compute; reflexivity).
  split; [exact Hdom|]. split; [exact Hr|]. split; [exact H|].
  exact (X_GetReplicasForKey_count 301 ring3 "alpha" 2 _ Hdom Hr H).
Defined.

(** [findSelfHost] returns the host of the first node with the given id;
    when no node has it, it returns "localhost:" and a non-empty port: the
    listen address without its leading ':' when that leaves a non-empty
    string ("localhost:8080" for ":8080", "localhost:h:1" for "h:1"), and
    "8080" when the listen address is "" or ":". *)
Theorem X_findSelfHost_spec (nodes : list NodeInfo) (nodeID listenAddr : string) :
  (forall pre n post, nodes = pre ++ n :: post -> ID n = nodeID ->
     Forall (fun m => ID m <> nodeID) pre -> findSelfHost nodes nodeID listenAddr = Host n) /\
  (Forall (fun m => ID m <> nodeID) nodes ->
     exists port, port <> EmptyString /\
       findSelfHost nodes nodeID listenAddr = ("localhost:" ++ port)%string) /\
  (Forall (fun m => ID m <> nodeID) nodes ->
     forall port, port <> EmptyString ->
     listenAddr = String ":" port \/ (listenAddr = port /\ forall rest, port <> String ":" rest) ->
     findSelfHost nodes nodeID listenAddr = ("localhost:" ++ port)%string) /\
  (Forall (fun m => ID m <> nodeID) nodes ->
     listenAddr = EmptyString \/ listenAddr = ":"%string ->
     findSelfHost nodes nodeID listenAddr = "localhost:8080"%string).
Proof.
  split; [|split; [|split]].
  - intros pre. revert nodes. induction pre as [|m pre IH]; intros nodes n post -> Hn Hpre.
    + cbn. rewrite Hn, String.eqb_refl. reflexivity.
    + inversion Hpre as [|? ? Hm Hpre']; subst. cbn.
      destruct (String.eqb_spec (ID m) (ID n)) as [E|_]; [contradiction|].
      exact (IH _ n post eq_refl eq_refl Hpre').
  - intros Hall. rewrite (findSelfHost_absent _ _ _ Hall). cbn [findSelfHost].
    exists (if String.eqb (TrimPrefixColon listenAddr) EmptyString then "8080"%string
            else TrimPrefixColon listenAddr).
    split; [|reflexivity].
    destruct (String.eqb_spec (TrimPrefixColon listenAddr) EmptyString); [discriminate|assumption].
  - intros Hall port Hp Hl. rewrite (findSelfHost_absent _ _ _ Hall). cbn [findSelfHost].
    assert (Ht : TrimPrefixColon listenAddr = port).
    { destruct Hl as [->|[-> Hnc]].
      - reflexivity.
      - unfold TrimPrefixColon. destruct port as [|c rest]; [reflexivity|].
        destruct (ascii_dec c ":") as [->|_]; [|reflexivity].
        exfalso. exact (Hnc rest eq_refl). }
    rewrite Ht. destruct (String.eqb_spec port EmptyString); [contradiction|reflexivity].
  - intros Hall Hl. rewrite (findSelfHost_absent _ _ _ Hall).
    destruct Hl as [->| ->]; reflexivity.
Qed.

(** On the ring [main] builds (the CLUSTER_NODES nodes, or the self node
    when none parses, with 100 virtual nodes each), [GetNodeForKey]
    always finds an owner, and it is one of those nodes. *)
Theorem X_main_ring_GetNodeForKey (nodeID listenAddr clusterEnv key : string) :
  let nodes := bootstrapNodes nodeID listenAddr clusterEnv in
  snd (GetNodeForKey (NewRing nodes mainVNodes) key) = true /\
  In (fst (GetNodeForKey (NewRing nodes mainVNodes) key)) nodes.
Proof.
  cbv zeta. set (nodes := bootstrapNodes nodeID listenAddr clusterEnv).
  set (r := NewRing nodes mainVNodes).
  destruct (NewRing_facts nodes mainVNodes) as (_ & Hlen & Hdom & Hown & _).
  fold r in Hlen, Hdom, Hown.
  assert (Hne : hashes r <> []).
  { pose proof (bootstrapNodes_ne nodeID listenAddr clusterEnv) as Hn. fold nodes in Hn.
    intros E. rewrite E in Hlen. destruct nodes; [contradiction|].
    unfold mainVNodes in Hlen. simpl in Hlen. lia. }
  destruct (GetNodeForKey_start r key Hne) as [Hf Hs].
  destruct (Hdom _ (hashAt_In r _ (startIndex_lt r (hashFn key) Hne))) as [m Hm].
  rewrite Hf, Hs. unfold nodeAt. rewrite Hm. split.
  - apply bool_decide_eq_true_2. eexists; reflexivity.
  - exact (Hown _ _ Hm).
Qed.

(** With the ring [main] builds and the router it starts ([NewRouter]
    clamps the factor to at least 1), every replica list the walk returns
    is non-empty: [Router.Put], [Router.Delete] and [Router.Get] never
    report "no replicas for key". *)
Theorem X_main_router_has_replicas (nodeID listenAddr clusterEnv host : string) (rf : Z)
    (tr : Transport) (st : KV.Store) (fuel : nat) (key value : string) (l : list NodeInfo) :
  GetReplicasForKey fuel (NewRing (bootstrapNodes nodeID listenAddr clusterEnv) mainVNodes) key
    (replicationFactor (NewRouter nodeID host rf)) = Some l ->
  l <> [] /\
  snd (Put (NewRouter nodeID host rf) tr st l key value) <> Some NoReplicas /\
  snd (Delete (NewRouter nodeID host rf) tr st l key) <> Some NoReplicas /\
  snd (Get (NewRouter nodeID host rf) tr st l key) <> Some NoReplicas.
Proof.
  intros H. set (nodes := bootstrapNodes nodeID listenAddr clusterEnv) in H.
  destruct (NewRing_facts nodes mainVNodes) as (_ & Hlen & _ & _ & _).
  assert (Hne : hashes (NewRing nodes mainVNodes) <> []).
  { pose proof (bootstrapNodes_ne nodeID listenAddr clusterEnv) as Hn. fold nodes in Hn.
    intros E. rewrite E in Hlen. destruct nodes; [contradiction|].
    unfold mainVNodes in Hlen. simpl in Hlen. lia. }
  assert (Hrf : 1 <= replicationFactor (NewRouter nodeID host rf))
    by (cbn; destruct (Z.ltb_spec rf 1); lia).
  destruct (replicas_head _ _ _ _ _ Hne Hrf H) as [rest ->].
  split; [discriminate|]. split; [|split].
  - rewrite Put_closed. destruct (perReplicaErrors _ _ _ _ _); discriminate.
  - rewrite Delete_closed. destruct (deleteErrors _ _ _ _); discriminate.
  - unfold Get. rewrite getLoop_firstAnswer. destruct (firstAnswer _ _ _ _ _); discriminate.
Qed.

Lemma X_main_router_has_replicas_witness :
  let l := [mkNodeInfo "node1" "localhost:8080"] in
  GetReplicasForKey 2 (NewRing (bootstrapNodes "node1" ":8080" "") mainVNodes) "alpha"
    (replicationFactor (NewRouter "node1" "localhost:8080" 1)) = Some l /\
  l <> [] /\
  snd (Put (NewRouter "node1" "localhost:8080" 1) unreachable ∅ l "alpha" "one")
    <> Some NoReplicas /\
  snd (Delete (NewRouter "node1" "localhost:8080" 1) unreachable ∅ l "alpha") <> Some NoReplicas /\
  snd (Get (NewRouter "node1" "localhost:8080" 1) unreachable ∅ l "alpha") <> Some NoReplicas.
Proof.
  cbv zeta.
  assert (H : GetReplicasForKey 2 (NewRing (bootstrapNodes "node1" ":8080" "") mainVNodes) "alpha"
                (replicationFactor (NewRouter "node1" "localhost:8080" 1))
              = Some [mkNodeInfo "node1" "localhost:8080"]) by (vm_compute; reflexivity).
  split; [exact H|].
  exact (X_main_router_has_replicas "node1" ":8080" "" "localhost:8080" 1 unreachable ∅ 2
           "alpha" "one" _ H).
Defined.

(** [Router.Delete] on a non-empty replica list removes the local copy
    exactly when some replica is local, posts to every remote replica in
    order, and reports an error exactly when some remote delete failed or
    answered a status of 300 or more. *)
Theorem X_Router_Delete_spec (r : Router) (tr : Transport) (st : KV.Store)
    (replicas : list NodeInfo) (key : string) :
  replicas <> [] ->
  fst (fst (Delete r tr st replicas key)) =
    (if existsb (isLocal r) replicas then KV.Delete st key else st) /\
  snd (fst (Delete r tr st replicas key)) = remoteHosts r replicas /\
  (snd (Delete r tr st replicas key) = None <->
   Forall (fun n => replicaDeleteErrors r tr key n = []) replicas).
Proof.
  intros Hne. rewrite Delete_closed. destruct replicas as [|n l]; [contradiction|].
  cbn [fst snd]. split; [reflexivity|]. split; [reflexivity|].
  assert (Hc : forall L, concat (map (replicaDeleteErrors r tr key) L) = [] <->
                         Forall (fun m => replicaDeleteErrors r tr key m = []) L).
  { induction L as [|m L IH]; cbn.
    - split; [intros _; constructor|reflexivity].
    - rewrite Forall_cons_iff, <- IH. split; [apply app_eq_nil|intros [-> ->]; reflexivity]. }
  unfold deleteErrors. destruct (concat (map (replicaDeleteErrors r tr key) (n :: l))) eqn:E;
    split; intros H.
  - apply Hc, E.
  - reflexivity.
  - discriminate.
  - apply Hc in H. rewrite H in E. discriminate.
Qed.

Lemma X_Router_Delete_spec_witness :
  [node1; node2] <> [] /\
  fst (fst (Delete router1 healthy store_alpha [node1; node2] "alpha")) =
    (if existsb (isLocal router1) [node1; node2] then KV.Delete store_alpha "alpha"
     else store_alpha) /\
  snd (fst (Delete router1 healthy store_alpha [node1; node2] "alpha")) =
    remoteHosts router1 [node1; node2] /\
  (snd (Delete router1 healthy store_alpha [node1; node2] "alpha") = None <->
   Forall (fun n => replicaDeleteErrors router1 healthy "alpha" n = []) [node1; node2]).
Proof.
  assert (Hne : [node1; node2] <> []) by discriminate.
  split; [exact Hne|]. exact (X_Router_Delete_spec router1 healthy store_alpha _ "alpha" Hne).
Defined.

(** Read your write: when the first replica is the local node, a [Get]
    after a [Put] returns the written value, whatever the peers answer and
    even when replication to them failed. *)
Theorem X_read_your_write (r : Router) (tr : Transport) (st : KV.Store)
    (n : NodeInfo) (rest : list NodeInfo) (key value : string) :
  isLocal r n = true ->
  Get r tr (fst (fst (Put r tr st (n :: rest) key value))) (n :: rest) key =
  (value, true, None).
Proof.
  intros Hn. rewrite Put_closed. cbn [fst existsb]. rewrite Hn. cbn [orb].
  unfold Get. cbn [getLoop]. rewrite Hn.
  unfold KV.Get, KV.Put. rewrite lookup_insert_eq. reflexivity.
Qed.

Lemma X_read_your_write_witness :
  isLocal router1 node1 = true /\
  Get router1 unreachable (fst (fst (Put router1 unreachable ∅ [node1; node2] "alpha" "one")))
    [node1; node2] "alpha" = ("one"%string, true, None).
Proof.
  assert (Hn : isLocal router1 node1 = true) by reflexivity.
  split; [exact Hn|]. exact (X_read_your_write router1 unreachable ∅ node1 [node2] "alpha" "one" Hn).
Defined.

(** [Router.Put] and [Router.Delete] change no local entry other than the
    key's. *)
Theorem X_Router_write_frame (r : Router) (tr : Transport) (st : KV.Store)
    (replicas : list NodeInfo) (key key' value : string) :
  key' <> key ->
  fst (fst (Put r tr st replicas key value)) !! key' = st !! key' /\
  fst (fst (Delete r tr st replicas key)) !! key' = st !! key'.
Proof.
  intros Hk. rewrite Put_closed, Delete_closed.
  destruct replicas as [|n l]; [split; reflexivity|]. cbn [fst].
  destruct (existsb (isLocal r) (n :: l)); [|split; reflexivity].
  unfold KV.Put, KV.Delete. rewrite lookup_insert_ne, lookup_delete_ne by congruence.
  split; reflexivity.
Qed.

Lemma X_Router_write_frame_witness :
  "beta"%string <> "alpha"%string /\
  fst (fst (Put router1 healthy store_alpha [node1] "alpha" "two")) !! "beta"%string
    = store_alpha !! "beta"%string /\
  fst (fst (Delete router1 healthy store_alpha [node1] "alpha")) !! "beta"%string
    = store_alpha !! "beta"%string.
Proof.
  assert (Hk : "beta"%string <> "alpha"%string) by discriminate.
  split; [exact Hk|]. exact (X_Router_write_frame router1 healthy store_alpha [node1] _ _ "two" Hk).
Defined.

(** The distributed PUT and DELETE handlers answer 200 "OK" exactly when
    the key has replicas and no replica reported an error. *)
Theorem X_HandleWriteDistributed_status (r : Router) (tr : Transport) (st : KV.Store)
    (replicas : list NodeInfo) (key value : string) :
  (HandleWriteDistributed (snd (Put r tr st replicas key value)) = (200, "OK"%string) <->
   replicas <> [] /\ perReplicaErrors r tr key value replicas = []) /\
  (HandleWriteDistributed (snd (Delete r tr st replicas key)) = (200, "OK"%string) <->
   replicas <> [] /\ deleteErrors r tr key replicas = []).
Proof.
  rewrite Put_closed, Delete_closed. destruct replicas as [|n l].
  - cbn. split; split; [discriminate|intros [H _]; contradiction|discriminate|
                        intros [H _]; contradiction].
  - cbn [snd]. split.
    + destruct (perReplicaErrors r tr key value (n :: l)); cbn; split.
      * intros _. split; [discriminate|reflexivity].
      * reflexivity.
      * discriminate.
      * intros [_ H]; discriminate.
    + destruct (deleteErrors r tr key (n :: l)); cbn; split.
      * intros _. split; [discriminate|reflexivity].
      * reflexivity.
      * discriminate.
      * intros [_ H]; discriminate.
Qed.

(** A rebalance run that completes over a snapshot of the store's keys,
    in whatever order [Keys()] lists them, counts every key once:
    [moved + kept + failures] is the number of keys in the store. *)
Theorem X_rebalance_counts (r : Router) (tr : Transport) (replicasOf : string -> list NodeInfo)
    (ctxDone : nat -> bool) (st : KV.Store) (keys : list string) (s' : RebState) :
  List.NoDup keys ->
  (forall k, In k keys <-> is_Some (st !! k)) ->
  RebalanceLocalKeys r tr replicasOf ctxDone st keys = (s', RebDone) ->
  (rb_moved s' + rb_kept s' + length (rb_failed s') = map_size st)%nat.
Proof.
  intros Hnd Hsnap H. unfold RebalanceLocalKeys in H.
  rewrite (rebalanceLoop_count r tr replicasOf ctxDone keys 0 (mkReb st 0 0 []) s'
             Hnd (fun k Hk => proj1 (Hsnap k) Hk) H).
  cbn [rb_moved rb_kept rb_failed length].
  rewrite (Permutation_length (snapshot_perm st keys Hnd Hsnap)).
  unfold KV.Keys. rewrite length_map, length_map_to_list. reflexivity.
Qed.

Lemma X_rebalance_counts_witness :
  let keys := ["beta"; "alpha"]%string in
  let res := RebalanceLocalKeys router1 healthy replicas_ab (fun _ => false) store_ab keys in
  List.NoDup keys /\ (forall k, In k keys <-> is_Some (store_ab !! k)) /\
  res = (fst res, RebDone) /\
  (rb_moved (fst res) + rb_kept (fst res) + length (rb_failed (fst res)) = map_size store_ab)%nat.
Proof.
  cbv zeta.
  assert (Hnd : List.NoDup ["beta"; "alpha"]%string)
    by (repeat constructor; simpl; intuition discriminate).
  assert (Hsnap : forall k, In k ["beta"; "alpha"]%string <-> is_Some (store_ab !! k))
    by (intros k; rewrite <- Keys_elem; vm_compute; tauto).
  assert (H : RebalanceLocalKeys router1 healthy replicas_ab (fun _ => false) store_ab
                ["beta"; "alpha"]%string =
              (fst (RebalanceLocalKeys router1 healthy replicas_ab (fun _ => false) store_ab
                      ["beta"; "alpha"]%string), RebDone)) by (vm_compute; reflexivity).
  split; [exact Hnd|]. split; [exact Hsnap|]. split; [exact H|].
  exact (X_rebalance_counts _ _ _ _ _ _ _ Hnd Hsnap H).
Defined.

(** After a completed run in which no move failed, a second run over a
    snapshot of the new store's keys, in any order, moves nothing, records
    no failure and leaves the store as it is, however it is cancelled. *)
Theorem X_rebalance_rerun_clean (r : Router) (tr : Transport)
    (replicasOf : string -> list NodeInfo) (ctxDone ctxDone' : nat -> bool)
    (st : KV.Store) (keys1 keys2 : list string) (s1 : RebState) :
  List.NoDup keys1 ->
  (forall k, In k keys1 <-> is_Some (st !! k)) ->
  RebalanceLocalKeys r tr replicasOf ctxDone st keys1 = (s1, RebDone) ->
  rb_failed s1 = [] ->
  (forall k, In k keys2 <-> is_Some (rb_store s1 !! k)) ->
  let s2 := fst (RebalanceLocalKeys r tr replicasOf ctxDone' (rb_store s1) keys2) in
  rb_store s2 = rb_store s1 /\ rb_moved s2 = 0%nat /\ rb_failed s2 = [].
Proof.
  intros Hnd1 Hsnap1 H Hf Hsnap2. unfold RebalanceLocalKeys in *.
  destruct (rebalanceLoop_spec r tr replicasOf ctxDone keys1 0 _ s1 Hnd1 H)
    as (I1 & I2 & _ & _).
  assert (Hok : forall k, In k keys2 -> rb_store s1 !! k = None \/
                 existsb (isLocal r) (replicasOf k) = true \/ replicasOf k = []).
  { intros k Hk. apply Hsnap2 in Hk as [v Hv].
    destruct (in_dec string_dec k keys1) as [Hin|Hnin].
    - destruct (I2 k Hin) as [E|[E|[E|E]]].
      + rewrite E in Hv. discriminate.
      + right; left; exact E.
      + right; right; exact E.
      + rewrite Hf in E. destruct E.
    - exfalso. rewrite (I1 k Hnin) in Hv. cbn [rb_store] in Hv.
      apply Hnin, Hsnap1. exists v. exact Hv. }
  exact (rebalanceLoop_noop r tr replicasOf ctxDone' _ 0 (mkReb (rb_store s1) 0 0 []) Hok).
Qed.

Lemma X_rebalance_rerun_clean_witness :
  let keys1 := ["beta"; "alpha"]%string in
  let res := RebalanceLocalKeys router1 healthy replicas_ab (fun _ => false) store_ab keys1 in
  let keys2 := KV.Keys (rb_store (fst res)) in
  List.NoDup keys1 /\ (forall k, In k keys1 <-> is_Some (store_ab !! k)) /\
  res = (fst res, RebDone) /\ rb_failed (fst res) = [] /\
  (forall k, In k keys2 <-> is_Some (rb_store (fst res) !! k)) /\
  let s2 := fst (RebalanceLocalKeys router1 healthy replicas_ab (fun i => Nat.eqb i 1)
                   (rb_store (fst res)) keys2) in
  rb_store s2 = rb_store (fst res) /\ rb_moved s2 = 0%nat /\ rb_failed s2 = [].
Proof.
  cbv zeta.
  assert (Hnd : List.NoDup ["beta"; "alpha"]%string)
    by (repeat constructor; simpl; intuition discriminate).
  assert (Hsnap : forall k, In k ["beta"; "alpha"]%string <-> is_Some (store_ab !! k))
    by (intros k; rewrite <- Keys_elem; vm_compute; tauto).
  assert (H : RebalanceLocalKeys router1 healthy replicas_ab (fun _ => false) store_ab
                ["beta"; "alpha"]%string =
              (fst (RebalanceLocalKeys router1 healthy replicas_ab (fun _ => false) store_ab
                      ["beta"; "alpha"]%string), RebDone)) by (vm_compute; reflexivity).
  assert (Hf : rb_failed (fst (RebalanceLocalKeys router1 healthy replicas_ab (fun _ => false)
                                 store_ab ["beta"; "alpha"]%string)) = [])
    by (vm_compute; reflexivity).
  pose proof (Keys_elem (rb_store (fst (RebalanceLocalKeys router1 healthy replicas_ab
                (fun _ => false) store_ab ["beta"; "alpha"]%string)))) as Hsnap2.
  split; [exact Hnd|]. split; [exact Hsnap|]. split; [exact H|]. split; [exact Hf|].
  split; [exact Hsnap2|].
  exact (X_rebalance_rerun_clean _ _ _ _ (fun i => Nat.eqb i 1) _ _ _ _
           Hnd Hsnap H Hf Hsnap2).
Defined.

(** [Store.Keys] lists every present key once, and nothing else. *)
Theorem X_Store_Keys (s : KV.Store) :
  List.NoDup (KV.Keys s) /\
  (forall k, In k (KV.Keys s) <-> is_Some (s !! k)) /\
  length (KV.Keys s) = map_size s.
Proof.
  split; [apply Keys_NoDup|]. split; [apply Keys_elem|].
  unfold KV.Keys. rewrite length_map, length_map_to_list. reflexivity.
Qed.

(** The replica endpoints: a replica GET after a replica PUT of [k]
    returns the value, and after a replica DELETE it answers 404; an
    empty key is stored by the PUT but the GET refuses it with 400. *)
Theorem X_replica_handlers (st : KV.Store) (k v : string) :
  HandleReplicaGet (fst (HandleReplicaPut st (Some (k, v)))) k =
    (if String.eqb k EmptyString then (400, "missing key"%string) else (200, v)) /\
  fst (HandleReplicaPut st (Some (k, v))) !! k = Some v /\
  HandleReplicaGet (fst (HandleReplicaDelete st (Some k))) k =
    (if String.eqb k EmptyString then (400, "missing key"%string)
     else (404, "not found"%string)).
Proof.
  unfold HandleReplicaGet, HandleReplicaPut, HandleReplicaDelete, KV.Get, KV.Put, KV.Delete.
  cbn [fst]. rewrite lookup_insert_eq, lookup_delete_eq.
  split; [|split; reflexivity]. reflexivity.
Qed.

(** Retrying [Router.Put] or [Router.Delete] with the same replicas,
    against peers that answer as before, gives the same result as the
    first attempt: same local store, same hosts contacted, same error. *)
Theorem X_Router_write_retry (r : Router) (tr : Transport) (st : KV.Store)
    (replicas : list NodeInfo) (key value : string) :
  Put r tr (fst (fst (Put r tr st replicas key value))) replicas key value =
    Put r tr st replicas key value /\
  Delete r tr (fst (fst (Delete r tr st replicas key))) replicas key =
    Delete r tr st replicas key.
Proof.
  rewrite !Put_closed, !Delete_closed. destruct replicas as [|n l]; [split; reflexivity|].
  cbn [fst]. destruct (existsb (isLocal r) (n :: l)); [|split; reflexivity].
  unfold KV.Put, KV.Delete. rewrite insert_insert_eq, delete_delete_eq. split; reflexivity.
Qed.

(** Removing an id that owns no slot changes nothing: the map is kept and
    the hashes are only sorted. *)
Theorem X_RemoveNode_absent (r : Ring) (id : string) :
  (forall h, In h (hashes r) -> ID (nodeAt r h) <> id) ->
  RemoveNode r id = sortHashes r.
Proof.
  intros Hnone. unfold RemoveNode.
  rewrite (fold_removeStep_none id (hashes r) (hashMap r) [] Hnone).
  destruct r as [v hs hm]. reflexivity.
Qed.

Lemma X_RemoveNode_absent_witness :
  (forall h, In h (hashes ring3) -> ID (nodeAt ring3 h) <> "node4") /\
  RemoveNode ring3 "node4" = sortHashes ring3.
Proof.
  assert (Hc : forallb (fun h => negb (String.eqb (ID (nodeAt ring3 h)) "node4")) (hashes ring3)
               = true) by (vm_compute; reflexivity).
  assert (Hn : forall h, In h (hashes ring3) -> ID (nodeAt ring3 h) <> "node4").
  { intros h Hh. rewrite forallb_forall in Hc. specialize (Hc h Hh). revert Hc.
    generalize (ID (nodeAt ring3 h)). intros x Hx E. subst x. discriminate. }
  split; [exact Hn|]. exact (X_RemoveNode_absent ring3 "node4" Hn).
Defined.

End Extras.
